(** * Accessibility heatmap engine of goat: src/core/heatmap.py and src/schemas/heatmap.py

    A shallow embedding of the grid aggregator ([sort_and_unique_by_grid_ids]),
    the per-segment reduction kernels ([medians], [mins], [counts],
    [modified_gaussian_per_grid], [combined_modified_gaussian_per_grid]),
    the quantile classifier ([quantile_classify]), the validators of
    [HeatmapSettings.heatmap_config] and the travel-time matrix cache writer
    ([save_traveltime_matrix]). *)

From Stdlib Require Import ZArith QArith Qcanon Qround Reals Lra Ascii String.
From stdpp Require Import base list sorting strings gmap pretty.

Open Scope Z_scope.

(* ------------------------------------------------------------------ *)
(** ** numpy's indirect introsort ([np.argsort], default kind "quicksort")

    [ndarray.argsort()] without [kind] runs numpy's [aquicksort_]
    (npysort/quicksort.cpp) on the portable path: median-of-three quicksort,
    insertion sort below [SMALL_QUICKSORT = 16], heapsort ([aheapsort_]) once
    the depth budget [2 * msb(num)] is spent.  Pointers into [tosort] are
    indices of type [Z]; [tosort] is a [list nat] of row indices; [v] holds
    the keys.  Every loop carries a fuel bound that the algorithm never
    exhausts (indices stay within [0, num)).  On CPUs where numpy dispatches
    [argsort] to its SIMD sorts (x86-simd-sort with AVX-512, numpy 1.25 and
    later) the order among equal keys can differ; the model is the portable
    path. *)
Module NpySort.

Definition SMALL_QUICKSORT : Z := 16.

Definition less (a b : Z) : bool := a <? b.

Definition get (arr : list nat) (i : Z) : nat := nth (Z.to_nat i) arr 0%nat.
Definition set (arr : list nat) (i : Z) (x : nat) : list nat := <[Z.to_nat i := x]> arr.
(** [INTP_SWAP] of two slots *)
Definition swap (arr : list nat) (i j : Z) : list nat :=
  let a := get arr i in let b := get arr j in set (set arr i b) j a.
(** [v[*p]] *)
Definition key (v : list Z) (arr : list nat) (p : Z) : Z := nth (get arr p) v 0.

(** [do { ++pi; } while (less(v[*pi], vp));] *)
Fixpoint scan_up (fuel : nat) (v : list Z) (arr : list nat) (vp pi : Z) : Z :=
  match fuel with
  | O => pi
  | S f => if less (key v arr (pi + 1)) vp then scan_up f v arr vp (pi + 1) else pi + 1
  end.

(** [do { --pj; } while (less(vp, v[*pj]));] *)
Fixpoint scan_down (fuel : nat) (v : list Z) (arr : list nat) (vp pj : Z) : Z :=
  match fuel with
  | O => pj
  | S f => if less vp (key v arr (pj - 1)) then scan_down f v arr vp (pj - 1) else pj - 1
  end.

(** The inner [for (;;)] of the partition. *)
Fixpoint partition_loop (fuel : nat) (v : list Z) (arr : list nat) (vp pi pj : Z)
  : list nat * Z :=
  match fuel with
  | O => (arr, pi)
  | S f =>
      let pi := scan_up (length arr) v arr vp pi in
      let pj := scan_down (length arr) v arr vp pj in
      if pj <=? pi then (arr, pi)
      else partition_loop f v (swap arr pi pj) vp pi pj
  end.

(** One median-of-three partition of [tosort[pl..pr]]; returns the array
    and the final position [pi] of the pivot. *)
Definition partition_step (v : list Z) (arr : list nat) (pl pr : Z) : list nat * Z :=
  let pm := pl + Z.shiftr (pr - pl) 1 in
  let arr := if less (key v arr pm) (key v arr pl) then swap arr pm pl else arr in
  let arr := if less (key v arr pr) (key v arr pm) then swap arr pr pm else arr in
  let arr := if less (key v arr pm) (key v arr pl) then swap arr pm pl else arr in
  let vp := key v arr pm in
  let pj := pr - 1 in
  let arr := swap arr pm pj in
  let '(arr, pi) := partition_loop (length arr) v arr vp pl pj in
  (swap arr pi (pr - 1), pi).

(** [while ((pr - pl) > SMALL_QUICKSORT) { ... }]: partition, push the larger
    part with the decremented depth, continue on the smaller one. *)
Fixpoint qs_while (fuel : nat) (v : list Z) (arr : list nat) (pl pr : Z)
    (stack : list (Z * Z * Z)) (cdepth : Z) : list nat * Z * Z * list (Z * Z * Z) :=
  match fuel with
  | O => (arr, pl, pr, stack)
  | S f =>
      if SMALL_QUICKSORT <? pr - pl then
        let '(arr, pi) := partition_step v arr pl pr in
        let cdepth := cdepth - 1 in
        if pi - pl <? pr - pi
        then qs_while f v arr pl (pi - 1) ((pi + 1, pr, cdepth) :: stack) cdepth
        else qs_while f v arr (pi + 1) pr ((pl, pi - 1, cdepth) :: stack) cdepth
      else (arr, pl, pr, stack)
  end.

(** [while (pj > pl && less(vp, v[*pk])) { *pj-- = *pk--; }] *)
Fixpoint ins_shift (fuel : nat) (v : list Z) (arr : list nat) (pl : Z) (vp pj : Z)
  : list nat * Z :=
  match fuel with
  | O => (arr, pj)
  | S f =>
      if (pl <? pj) && less vp (key v arr (pj - 1))
      then ins_shift f v (set arr pj (get arr (pj - 1))) pl vp (pj - 1)
      else (arr, pj)
  end.

(** [for (pi = pl + 1; pi <= pr; ++pi) { ... *pj = vi; }] *)
Fixpoint ins_loop (fuel : nat) (v : list Z) (arr : list nat) (pl pi pr : Z) : list nat :=
  match fuel with
  | O => arr
  | S f =>
      if pi <=? pr then
        let vi := get arr pi in
        let '(arr, pj) := ins_shift (length arr) v arr pl (nth vi v 0) pi in
        ins_loop f v (set arr pj vi) pl (pi + 1) pr
      else arr
  end.

Definition insertion_sort (v : list Z) (arr : list nat) (pl pr : Z) : list nat :=
  ins_loop (length arr) v arr pl (pl + 1) pr.

(** The sift-down loop of [aheapsort_], on the 1-based view [a = tosort - 1]:
    [a[k]] is [arr[base + k]]. *)
Fixpoint sift (fuel : nat) (v : list Z) (arr : list nat) (base n : Z) (tmp : nat)
    (i j : Z) : list nat * Z :=
  match fuel with
  | O => (arr, i)
  | S f =>
      if j <=? n then
        let j := if (j <? n) && less (key v arr (base + j)) (key v arr (base + j + 1))
                 then j + 1 else j in
        if less (nth tmp v 0) (key v arr (base + j))
        then sift f v (set arr (base + i) (get arr (base + j))) base n tmp j (j + j)
        else (arr, i)
      else (arr, i)
  end.

Fixpoint heapify (fuel : nat) (v : list Z) (arr : list nat) (base n l : Z) : list nat :=
  match fuel with
  | O => arr
  | S f =>
      if 0 <? l then
        let tmp := get arr (base + l) in
        let '(arr, i) := sift (length arr) v arr base n tmp l (2 * l) in
        heapify f v (set arr (base + i) tmp) base n (l - 1)
      else arr
  end.

Fixpoint extract (fuel : nat) (v : list Z) (arr : list nat) (base n : Z) : list nat :=
  match fuel with
  | O => arr
  | S f =>
      if 1 <? n then
        let tmp := get arr (base + n) in
        let arr := set arr (base + n) (get arr (base + 1)) in
        let n := n - 1 in
        let '(arr, i) := sift (length arr) v arr base n tmp 1 2 in
        extract f v (set arr (base + i) tmp) base n
      else arr
  end.

Definition aheapsort (v : list Z) (arr : list nat) (pl n : Z) : list nat :=
  let base := pl - 1 in
  extract (length arr) v (heapify (length arr) v arr base n (Z.shiftr n 1)) base n.

(** The outer [for (;;)] of [aquicksort_]: depth check, partition loop,
    insertion sort, [stack_pop]. *)
Fixpoint aqs (fuel : nat) (v : list Z) (arr : list nat) (pl pr : Z)
    (stack : list (Z * Z * Z)) (cdepth : Z) : list nat :=
  match fuel with
  | O => arr
  | S f =>
      let '(arr, stack) :=
        if cdepth <? 0 then (aheapsort v arr pl (pr - pl + 1), stack)
        else
          let '(arr, pl, pr, stack) := qs_while (length arr) v arr pl pr stack cdepth in
          (insertion_sort v arr pl pr, stack) in
      match stack with
      | [] => arr
      | (l, r, d) :: stack => aqs f v arr l r stack d
      end
  end.

(** [npy_get_msb(num)]: position of the most significant bit. *)
Definition npy_get_msb (num : Z) : Z := Z.log2 num.

(** [keys.argsort()]: the permutation of row indices, [tosort] starting as
    [0 .. num-1]. *)
Definition argsort (v : list Z) : list nat :=
  let num := Z.of_nat (length v) in
  aqs (S (length v)) v (seq 0 (length v)) 0 (num - 1) [] (npy_get_msb num * 2).

End NpySort.

(* ------------------------------------------------------------------ *)
(** ** The grid aggregator and the segmented primitives (src/core/heatmap.py)

    Travel times and scores are exact rationals ([Qc], canonical, so that
    equal numbers are equal terms); grid ids are integers.  The kernels
    compute in floating point and store into [np.float32] arrays, which
    rounds; the model gives the exact values before that rounding. *)
Module Aggregator.

Local Open Scope Qc_scope.

Definition qz (z : Z) : Qc := Qc_of_Z z.

(** A row [(grid_id, travel_time)] of [table = np.vstack(...).transpose()]. *)
Definition row : Type := (Z * Qc)%type.

(** [np.vstack] of the int64 grid ids with the float64 travel times has
    dtype float64: each grid id becomes the nearest double, ties to even
    (exact up to [2^53]; a double of an int64 is an integer, kept in [Z]). *)
Definition float64_of_int (z : Z) : Z :=
  (let a := Z.abs z in
   if a <? 2 ^ 53 then z
   else
     let e := Z.log2 a - 52 in
     let m := Z.shiftr a e in
     let r := a - Z.shiftl m e in
     let half := 2 ^ (e - 1) in
     let m' := if (half <? r) || ((r =? half) && Z.odd m) then m + 1 else m in
     Z.sgn z * Z.shiftl m' e)%Z.

(** [np.vstack((grid_ids, travel_times)).transpose()]; [vstack] raises
    [ValueError] (here [None]) on sequences of different lengths. *)
Definition table (grid_ids : list Z) (travel_times : list Qc) : option (list row) :=
  if decide (length grid_ids = length travel_times)
  then Some (zip (map float64_of_int grid_ids) travel_times) else None.

(** [table[perm]]: fancy indexing with a permutation of row indices. *)
Definition take_rows (t : list row) (perm : list nat) : list row :=
  map (fun i => nth i t (0%Z, 0)) perm.

(** [np.unique(ar, return_index=True)] as numpy documents it: the sorted
    distinct values (numpy keeps the first element of each run of the sorted
    array, [mask[1:] = aux[1:] != aux[:-1]]) and, for each, the index of its
    first occurrence in [ar]. *)
Fixpoint first_index (x : Z) (ar : list Z) : nat :=
  match ar with
  | [] => 0%nat
  | y :: ar => if Z.eqb y x then 0%nat else S (first_index x ar)
  end.

Fixpoint uniq_from (prev : Z) (aux : list Z) : list Z :=
  match aux with
  | [] => []
  | y :: aux => if Z.eqb y prev then uniq_from prev aux else y :: uniq_from y aux
  end.

Definition uniq_sorted (aux : list Z) : list Z :=
  match aux with
  | [] => []
  | y :: aux => y :: uniq_from y aux
  end.

Definition np_unique_index (ar : list Z) : list Z * list nat :=
  let aux := merge_sort Z.le ar in
  let us := uniq_sorted aux in
  (us, map (fun u => first_index u ar) us).

(** The body of [sort_and_unique_by_grid_ids] once [table[:, 0].argsort()]
    has returned the row permutation [perm]. *)
Definition sort_and_unique_with (perm : list nat) (t : list row)
  : list row * (list Z * list nat) :=
  let sorted_table := take_rows t perm in
  (sorted_table, np_unique_index (map fst sorted_table)).

(** [sort_and_unique_by_grid_ids(grid_ids, travel_times)], returning
    [(sorted_table, unique)], with [unique = (values, first indices)]. *)
Definition sort_and_unique_by_grid_ids (grid_ids : list Z) (travel_times : list Qc)
  : option (list row * (list Z * list nat)) :=
  match table grid_ids travel_times with
  | None => None
  | Some t => Some (sort_and_unique_with (NpySort.argsort (map fst t)) t)
  end.

(** The contract numpy documents for [keys.argsort()]: a permutation of
    the row indices that lists the keys in non-decreasing order. *)
Definition is_argsort (keys : list Z) (perm : list nat) : Prop :=
  perm ≡ₚ seq 0 (length keys) /\ Sorted Z.le (map (fun i => nth i keys 0%Z) perm).

(** Python slicing [l[lo:hi]] with non-negative bounds. *)
Definition slice {A} (l : list A) (lo hi : nat) : list A := take (hi - lo) (drop lo l).

Fixpoint bounded_slices {A} (l : list A) (lo : nat) (his : list nat) : list (list A) :=
  match his with
  | [] => []
  | hi :: his => slice l lo hi :: bounded_slices l hi his
  end.

(** [unique_index = np.append(unique[1], travel_times.shape[0])] and the loop
    [for i in range(unique_index.shape[0] - 1): travel_times[unique_index[i] :
    unique_index[i + 1]]] shared by every kernel. *)
Definition segments {A} (travel_times : list A) (unique_index : list nat) : list (list A) :=
  match unique_index ++ [length travel_times] with
  | [] => []
  | lo :: his => bounded_slices travel_times lo his
  end.

(** Results of a Python call: [None], a value, or a raised exception. *)
Inductive pyres (A : Type) : Type :=
  | PyNone : pyres A
  | PyRet : A -> pyres A
  | PyRaise : string -> pyres A.
Arguments PyNone {A}.
Arguments PyRet {A} _.
Arguments PyRaise {A} _.

(** [np.median]: middle element, or mean of the two middle elements of the
    sorted slice; [None] stands for the [nan] of an empty slice. *)
Definition np_median (xs : list Qc) : option Qc :=
  let s := merge_sort Qcle xs in
  let n := length s in
  match n with
  | O => None
  | _ => if Nat.even n
         then Some ((nth (Nat.div n 2 - 1) s 0 + nth (Nat.div n 2) s 0) / Q2Qc 2)
         else Some (nth (Nat.div n 2) s 0)
  end.

(** [np.min]: raises [ValueError] on an empty slice. *)
Definition np_min (xs : list Qc) : option Qc :=
  match xs with
  | [] => None
  | x :: xs => Some (foldl (fun m y => if decide (y < m) then y else m) x xs)
  end.

Definition medians (travel_times : list Qc) (unique : list Z * list nat)
  : pyres (list (option Qc)) :=
  match travel_times with
  | [] => PyNone
  | _ => PyRet (map np_median (segments travel_times unique.2))
  end.

Definition mins (travel_times : list Qc) (unique : list Z * list nat) : pyres (list Qc) :=
  match travel_times with
  | [] => PyNone
  | _ => match mapM np_min (segments travel_times unique.2) with
         | Some ms => PyRet ms
         | None => PyRaise "ValueError"
         end
  end.

Definition counts (travel_times : list Qc) (unique : list Z * list nat) : pyres (list nat) :=
  match travel_times with
  | [] => PyNone
  | _ => PyRet (map length (segments travel_times unique.2))
  end.

(** [np.average] of a slice: the sum of its values divided by their number;
    [None] stands for the undefined mean of an empty slice. *)
Definition np_average (xs : list Qc) : option Qc :=
  match xs with
  | [] => None
  | _ => Some (foldl Qcplus 0 xs / Qc_of_Z (Z.of_nat (length xs)))
  end.

Definition averages (travel_times : list Qc) (unique : list Z * list nat)
  : pyres (list (option Qc)) :=
  match travel_times with
  | [] => PyNone
  | _ => PyRet (map np_average (segments travel_times unique.2))
  end.

End Aggregator.

(* ------------------------------------------------------------------ *)
(** ** The gaussian decay kernels (src/core/heatmap.py)

    [modified_gaussian_per_grid] and [combined_modified_gaussian_per_grid]
    over the reals: double-precision rounding is not modelled; the
    [ZeroDivisionError] a zero [sensitivity_] raises in the [@njit] code is.
    [None] for empty travel times is [PyNone]. *)
Module Decay.

Local Open Scope R_scope.

(** [x / y] on floats in [@njit] code: numba's default ([python]) error
    model raises [ZeroDivisionError] when [y] is [0.0]. *)
Definition py_div (x y : R) : Aggregator.pyres R :=
  if Req_EM_T y 0 then Aggregator.PyRaise "ZeroDivisionError"%string
  else Aggregator.PyRet (x / y).

(** [for t in travel_time: if t > cutoff: continue;
    f = exp(-t * t / sensitivity_); sum += f], from the running [sum]. *)
Fixpoint modified_gaussian_segment (sensitivity_ cutoff : R) (travel_time : list R) (sum : R)
  : Aggregator.pyres R :=
  match travel_time with
  | [] => Aggregator.PyRet sum
  | t :: travel_time =>
      if Rlt_dec cutoff t then modified_gaussian_segment sensitivity_ cutoff travel_time sum
      else match py_div ((- t) * t) sensitivity_ with
           | Aggregator.PyRet x =>
               modified_gaussian_segment sensitivity_ cutoff travel_time (sum + exp x)
           | Aggregator.PyRaise e => Aggregator.PyRaise e
           | Aggregator.PyNone => Aggregator.PyNone
           end
  end.

(** [for i in range(unique_index.shape[0] - 1): ...; per_grids[i] = sum]:
    the segments in order, the first exception ending the loop. *)
Fixpoint per_segment (f : list R -> Aggregator.pyres R) (segs : list (list R))
  : Aggregator.pyres (list R) :=
  match segs with
  | [] => Aggregator.PyRet []
  | seg :: segs =>
      match f seg with
      | Aggregator.PyRet x =>
          match per_segment f segs with
          | Aggregator.PyRet xs => Aggregator.PyRet (x :: xs)
          | Aggregator.PyRaise e => Aggregator.PyRaise e
          | Aggregator.PyNone => Aggregator.PyNone
          end
      | Aggregator.PyRaise e => Aggregator.PyRaise e
      | Aggregator.PyNone => Aggregator.PyNone
      end
  end.

Definition modified_gaussian_per_grid (travel_times : list R) (unique : list Z * list nat)
    (sensitivity cutoff : R) : Aggregator.pyres (list R) :=
  match travel_times with
  | [] => Aggregator.PyNone
  | _ =>
      let sensitivity_ := sensitivity / (60 * 60) in
      per_segment (fun travel_time => modified_gaussian_segment sensitivity_ cutoff travel_time 0)
                  (Aggregator.segments travel_times unique.2)
  end.

(** [for t in travel_time: if t > cutoff: continue; if t <= static_traveltime:
    f = 1 else: t = t - static_traveltime; f = exp(-t * t / sensitivity_);
    sum += f], from the running [sum]. *)
Fixpoint combined_modified_gaussian_segment (sensitivity_ cutoff static_traveltime : R)
    (travel_time : list R) (sum : R) : Aggregator.pyres R :=
  match travel_time with
  | [] => Aggregator.PyRet sum
  | t :: travel_time =>
      if Rlt_dec cutoff t
      then combined_modified_gaussian_segment sensitivity_ cutoff static_traveltime travel_time sum
      else if Rle_dec t static_traveltime
      then combined_modified_gaussian_segment sensitivity_ cutoff static_traveltime travel_time
             (sum + 1)
      else let t := t - static_traveltime in
           match py_div ((- t) * t) sensitivity_ with
           | Aggregator.PyRet x =>
               combined_modified_gaussian_segment sensitivity_ cutoff static_traveltime
                 travel_time (sum + exp x)
           | Aggregator.PyRaise e => Aggregator.PyRaise e
           | Aggregator.PyNone => Aggregator.PyNone
           end
  end.

Definition combined_modified_gaussian_per_grid (travel_times : list R)
    (unique : list Z * list nat) (sensitivity cutoff static_traveltime : R)
  : Aggregator.pyres (list R) :=
  match travel_times with
  | [] => Aggregator.PyNone
  | _ =>
      let sensitivity_ := sensitivity / (60 * 60) in
      per_segment (fun travel_time =>
                     combined_modified_gaussian_segment sensitivity_ cutoff static_traveltime
                       travel_time 0)
                  (Aggregator.segments travel_times unique.2)
  end.

(** The number of samples of a group within the cutoff. *)
Definition within (cutoff : R) (seg : list R) : nat :=
  length (List.filter (fun t => if Rle_dec t cutoff then true else false) seg).

(** The sum of the contributions [g t] of the samples within the cutoff. *)
Definition guarded (cutoff : R) (g : R -> R) (seg : list R) : R :=
  fold_right Rplus 0 (map (fun t => if Rle_dec t cutoff then g t else 0) seg).

End Decay.

(* ------------------------------------------------------------------ *)
(** ** The quantile classifier [quantile_classify(a, NQ=5)]

    Scores are finite (exact rationals) or [nan]; infinite scores are not
    modelled (with [inf] among the positive scores [np.quantile] can give
    [nan] thresholds, and slots stay unwritten).  The output array is
    [np.empty(a.size, np.int8)] filled by masked writes: a slot no mask ever
    selects keeps whatever [np.empty] left there, modelled as [None]. *)
Module Classify.

Import Aggregator.
Local Open Scope Qc_scope.

Inductive score : Type :=
  | Num (x : Qc)
  | NaN.

Definition cell : Type := option Z.

(** numpy's elementwise comparisons: every comparison with [nan] is false. *)
Definition gt0 (s : score) : bool :=
  match s with Num x => bool_decide (0 < x) | NaN => false end.
Definition eq0 (s : score) : bool :=
  match s with Num x => bool_decide (x = 0) | NaN => false end.
Definition lt (s : score) (q : Qc) : bool :=
  match s with Num x => bool_decide (x < q) | NaN => false end.
Definition ge (s : score) (q : Qc) : bool :=
  match s with Num x => bool_decide (q <= x) | NaN => false end.
Definition isnan (s : score) : bool :=
  match s with Num _ => false | NaN => true end.

(** [a[a_gt_0]] *)
Definition positives (a : list score) : list Qc :=
  omap (fun s => match s with
                 | Num x => if bool_decide (0 < x) then Some x else None
                 | NaN => None
                 end) a.

(** [np.quantile(xs, p)] with numpy's default "linear" method: virtual index
    [h = p * (n - 1)], interpolation between the neighbouring order
    statistics ([_lerp], exact here). *)
Definition np_quantile (xs : list Qc) (p : Qc) : Qc :=
  let s := merge_sort Qcle xs in
  let n := length s in
  let h := p * Qc_of_Z (Z.of_nat n - 1) in
  let lo := Nat.min (Z.to_nat (Qfloor h)) (n - 1) in
  let hi := Nat.min (S lo) (n - 1) in
  let g := h - Qc_of_Z (Z.of_nat lo) in
  nth lo s 0 + (nth hi s 0 - nth lo s 0) * g.

(** [q = np.arange(1 / NQ, 1, 1 / NQ)]: [1 / 0] raises [ZeroDivisionError]
    ([None]); a negative step gives an empty range; otherwise the fractions
    [k / NQ], [0 < k < NQ].  numpy computes the range in doubles: its values
    are these fractions up to rounding, and for some [NQ] (3, 6, 7, 14, 19,
    ...) the rounded length [ceil((1 - 1/NQ) / (1/NQ))] is [NQ], adding a
    value close to 1.  For the default [NQ = 5] the range has the four
    values [0.2], [0.4], [0.6000000000000001], [0.8]. *)
Definition arange_fracs (NQ : Z) : option (list Qc) :=
  if Z.eqb NQ 0 then None
  else if Z.ltb NQ 0 then Some []
  else Some (map (fun k => Q2Qc (Z.of_nat k # Z.to_pos NQ)) (seq 1 (Z.to_nat NQ - 1))).

(** [out[np.where(mask)] = v] *)
Definition mask_set (out : list cell) (a : list score) (mask : score -> bool) (v : Z)
  : list cell :=
  zip_with (fun o x => if mask x then Some v else o) out a.

(** [for i in range(NQ - 2): out[(a >= quantiles[i]) & (a < quantiles[i + 1])] = i + 2];
    an index past the end of [quantiles] raises [IndexError] ([None]). *)
Fixpoint band_loop (quantiles : list Qc) (a : list score) (out : list cell) (ids : list nat)
  : option (list cell) :=
  match ids with
  | [] => Some out
  | i :: ids =>
      match quantiles !! i, quantiles !! S i with
      | Some lo, Some hi =>
          band_loop quantiles a
            (mask_set out a (fun x => ge x lo && lt x hi) (Z.of_nat i + 2)) ids
      | _, _ => None
      end
  end.

(** The part of [quantile_classify] after [q] is known; [None] is the
    [IndexError] of [quantiles[0]] / [quantiles[-1]] on an empty [q] or of
    the band loop. *)
Definition classify_with (q : list Qc) (a : list score) (NQ : Z) : option (list cell) :=
  let quantiles := map (np_quantile (positives a)) q in
  match head quantiles, last quantiles with
  | Some q0, Some qlast =>
      let out := repeat (None : cell) (length a) in
      let out := mask_set out a eq0 0 in
      let out := mask_set out a (fun x => gt0 x && lt x q0) 1 in
      let out := mask_set out a (fun x => ge x qlast) NQ in
      match band_loop quantiles a out (seq 0 (Z.to_nat (NQ - 2))) with
      | Some out => Some (mask_set out a isnan 0)
      | None => None
      end
  | _, _ => None
  end.

Definition quantile_classify (a : option (list score)) (NQ : Z) : pyres (list cell) :=
  match a with
  | None => PyNone
  | Some [] => PyRet []
  | Some a =>
      if decide (length (filter (fun x => gt0 x = true) a) = 0%nat)
      then PyRet (repeat (Some 0%Z) (length a))
      else match arange_fracs NQ with
           | None => PyRaise "ZeroDivisionError"
           | Some q => match classify_with q a NQ with
                       | Some out => PyRet out
                       | None => PyRaise "IndexError"
                       end
           end
  end.

(** [l[p]]: fancy indexing of a list by a permutation [p] of its positions. *)
Definition permute {A} (d : A) (l : list A) (p : list nat) : list A :=
  map (fun i => nth i l d) p.

(** Applying a function to the value a call returns. *)
Definition pyres_map {A B} (f : A -> B) (r : pyres A) : pyres B :=
  match r with
  | PyNone => PyNone
  | PyRet x => PyRet (f x)
  | PyRaise e => PyRaise e
  end.

(** The int8 array [quantile_classify] returns, read back: a written slot
    holds its class; an unwritten slot ([None]) holds whatever [np.empty]
    left in [buf], the array's initial buffer. *)
Definition read_out (buf : list Z) (out : list cell) : list Z :=
  zip_with (fun b c => match c with Some k => k | None => b end) buf out.

End Classify.

(* ------------------------------------------------------------------ *)
(** ** Validation of [HeatmapSettings.heatmap_config] (src/schemas/heatmap.py)

    Request bodies are JSON values; a Python dict is an association list in
    insertion order with distinct keys.  Pydantic (v1) turns a [ValueError],
    [TypeError] or [AssertionError] raised by a validator into a
    [ValidationError]; any other exception (here the [AttributeError] of
    [value.get] on a non-dict) escapes validation unchanged. *)
Module Validation.

#[local] Set Warnings "-register-all".
Inductive json : Type :=
  | JNull
  | JBool (b : bool)
  | JInt (z : Z)
  | JStr (s : string)
  | JList (l : list json)
  | JObj (kvs : list (string * json)).

(** Keys of a Python dict: the hashable JSON values. *)
Inductive dkey : Type :=
  | KNone
  | KBool (b : bool)
  | KInt (z : Z)
  | KStr (s : string).

Global Instance dkey_eq_dec : EqDecision dkey.
Proof. solve_decision. Defined.

Definition pydict : Type := list (dkey * json).

(** [d.get(k)] / [d[k]] *)
Fixpoint dict_get (k : dkey) (d : pydict) : option json :=
  match d with
  | [] => None
  | (k', v) :: d => if decide (k' = k) then Some v else dict_get k d
  end.

(** [d[k] = v]: replace in place, or append. *)
Fixpoint dict_set (k : dkey) (v : json) (d : pydict) : pydict :=
  match d with
  | [] => [(k, v)]
  | (k', v') :: d => if decide (k' = k) then (k, v) :: d else (k', v') :: dict_set k v d
  end.

(** [json.loads] of an object: later duplicates overwrite earlier ones. *)
Definition dict_of_obj (kvs : list (string * json)) : pydict :=
  foldl (fun d '(k, v) => dict_set (KStr k) v d) [] kvs.

Definition key_of (v : json) : option dkey :=
  match v with
  | JNull => Some KNone
  | JBool b => Some (KBool b)
  | JInt z => Some (KInt z)
  | JStr s => Some (KStr s)
  | _ => None
  end.

(** Python truthiness. *)
Definition truthy (v : json) : bool :=
  match v with
  | JNull => false
  | JBool b => b
  | JInt z => negb (Z.eqb z 0)
  | JStr s => negb (bool_decide (s = ""%string))
  | JList l => negb (bool_decide (l = []))
  | JObj kvs => negb (bool_decide (kvs = []))
  end.

Inductive verr : Type :=
  | ValidationError (msg : string)
  | AttributeError (msg : string).

Definition vres (A : Type) : Type := (verr + A)%type.

Definition vbind {A B} (r : vres A) (k : A -> vres B) : vres B :=
  match r with inl e => inl e | inr x => k x end.

Notation "'LET' x <-? r 'IN' k" := (vbind r (fun x => k))
  (at level 200, x name, r at level 100, k at level 200).

(** A value after the field validators: a dict, or the
    [HeatmapConfigConnectivity] instance built for connectivity heatmaps. *)
Inductive config : Type :=
  | CDict (d : pydict)
  | CConnectivity (max_traveltime : option Z).

(** [pass_poi_to_heatmap_config] ([pre=True]): [poi = value.get("poi")]. *)
Definition pass_poi_to_heatmap_config (value : json) : vres json :=
  match value with
  | JObj kvs =>
      match dict_get (KStr "poi") (dict_of_obj kvs) with
      | Some poi => if truthy poi then inr poi else inr value
      | None => inr value
      end
  | _ => inl (AttributeError "object has no attribute 'get'")
  end.

(** Pydantic's [dict_validator]: a dict as is, otherwise [dict(v)], which
    needs an iterable of key/value pairs with hashable keys. *)
Definition pair_of (v : json) : option (dkey * json) :=
  match v with
  | JList [k; x] => match key_of k with Some k => Some (k, x) | None => None end
  | JStr s => match String.length s with
              | 2%nat => match String.get 0 s, String.get 1 s with
                         | Some c0, Some c1 =>
                             Some (KStr (String c0 EmptyString), JStr (String c1 EmptyString))
                         | _, _ => None
                         end
              | _ => None
              end
  | _ => None
  end.

Definition dict_validator (v : json) : vres pydict :=
  match v with
  | JObj kvs => inr (dict_of_obj kvs)
  | JList l =>
      match mapM pair_of l with
      | Some ps => inr (foldl (fun d '(k, x) => dict_set k x d) [] ps)
      | None => inl (ValidationError "value is not a valid dict")
      end
  | JStr s => if bool_decide (s = ""%string) then inr []
              else inl (ValidationError "value is not a valid dict")
  | _ => inl (ValidationError "value is not a valid dict")
  end.

(** Pydantic's [int_validator] (pydantic 1.10): an int (also a bool), or
    [int(v)] of a string of at most [max_str_int = 4300] characters. For an
    ASCII string, [int] strips the blanks [str.strip] removes, then reads an
    optional sign and decimal digits with single underscores between
    them. *)
Definition is_digit (c : ascii) : bool :=
  let n := Ascii.nat_of_ascii c in (48 <=? n)%nat && (n <=? 57)%nat.
Definition is_blank (c : ascii) : bool :=
  let n := Ascii.nat_of_ascii c in
  (n =? 32)%nat || ((9 <=? n)%nat && (n <=? 13)%nat) || ((28 <=? n)%nat && (n <=? 31)%nat).
Definition is_underscore (c : ascii) : bool := (Ascii.nat_of_ascii c =? 95)%nat.

Fixpoint lstrip (cs : list ascii) : list ascii :=
  match cs with
  | c :: cs' => if is_blank c then lstrip cs' else cs
  | [] => []
  end.

(** [digit (["_"] digit)*] *)
Fixpoint digit_groups (cs : list ascii) : bool :=
  match cs with
  | [] => false
  | [c] => is_digit c
  | c :: ((c' :: cs'') as cs') =>
      is_digit c &&
      (if is_underscore c' then match cs'' with
                                | [] => false
                                | _ => digit_groups cs''
                                end
       else digit_groups cs')
  end.

Definition digits_value (cs : list ascii) : Z :=
  foldl (fun acc c => 10 * acc + Z.of_nat (Ascii.nat_of_ascii c - 48)) 0 cs.

Definition max_str_int : nat := 4300.

Definition parse_int (s : string) : option Z :=
  if (max_str_int <? String.length s)%nat then None else
  let cs := list_ascii_of_string s in
  let cs := reverse (lstrip (reverse (lstrip cs))) in
  let '(sign, cs) := match cs with
                     | c :: cs' => if (Ascii.nat_of_ascii c =? 43)%nat then (1, cs')
                                   else if (Ascii.nat_of_ascii c =? 45)%nat then (-1, cs')
                                   else (1, cs)
                     | [] => (1, [])
                     end in
  if digit_groups cs
  then Some (sign * digits_value (filter (fun c => is_digit c = true) cs)) else None.

Definition int_value (v : json) : option Z :=
  match v with
  | JInt z => Some z
  | JBool b => Some (if b then 1 else 0)
  | JStr s => parse_int s
  | _ => None
  end.

Definition int_validator (v : json) : bool := match int_value v with Some _ => true | None => false end.

(** [Model(...)] called with keyword arguments for a model whose fields are the required ints
    [fields]: each must be present and pass [int_validator]; extra keys are
    ignored. *)
Definition required_ints (fields : list string) (kwargs : pydict) : bool :=
  forallb (fun f => match dict_get (KStr f) kwargs with
                    | Some v => int_validator v
                    | None => false
                    end) fields.

(** [HeatmapBase], [HeatmapConfigGravity], [HeatmapConfigCombinedGravity],
    [HeatmapClosestAverage]. *)
Definition HeatmapBase_fields : list string := ["max_traveltime"; "weight"].
Definition HeatmapConfigGravity_fields : list string := HeatmapBase_fields ++ ["sensitivity"].
Definition HeatmapConfigCombinedGravity_fields : list string :=
  HeatmapConfigGravity_fields ++ ["static_traveltime"].
Definition HeatmapClosestAverage_fields : list string := HeatmapBase_fields ++ ["max_count"].

(** [**heatmap_config[category]]: a mapping with string keys, else
    [TypeError]. *)
Definition kwargs_of (v : json) : option pydict :=
  match v with
  | JObj kvs => Some (dict_of_obj kvs)
  | _ => None
  end.

Definition validate_model (fields : list string) (v : json) : vres unit :=
  match kwargs_of v with
  | None => inl (ValidationError "argument after ** must be a mapping")
  | Some kw => if required_ints fields kw then inr tt
               else inl (ValidationError "field required or not a valid integer")
  end.

(** [HeatmapConfigConnectivity] called with the keys of [value]: [max_traveltime: int =
    Field(None, le=25)], so absent or [null] is allowed. *)
Definition HeatmapConfigConnectivity (d : pydict) : vres config :=
  if forallb (fun kv => match kv.1 with KStr _ => true | _ => false end) d then
    match dict_get (KStr "max_traveltime") d with
    | None | Some JNull => inr (CConnectivity None)
    | Some v =>
        match int_value v with
        | Some z => if Z.leb z 25 then inr (CConnectivity (Some z))
                    else inl (ValidationError "ensure this value is less than or equal to 25")
        | None => inl (ValidationError "value is not a valid integer")
        end
    end
  else inl (ValidationError "keywords must be strings").

Inductive HeatmapType : Type :=
  | modified_gaussian
  | combined_cumulative_modified_gaussian
  | connectivity
  | cumulative
  | closest_average.

Global Instance HeatmapType_eq_dec : EqDecision HeatmapType.
Proof. solve_decision. Defined.

Definition HeatmapType_value (t : HeatmapType) : string :=
  match t with
  | modified_gaussian => "modified_gaussian"
  | combined_cumulative_modified_gaussian => "combined_cumulative_modified_gaussian"
  | connectivity => "connectivity"
  | cumulative => "cumulative"
  | closest_average => "closest_average"
  end.

(** [heatmap_config_schema_connectivity] *)
Definition heatmap_config_schema_connectivity (heatmap_type : HeatmapType) (value : pydict)
  : vres config :=
  if decide (heatmap_type = connectivity) then HeatmapConfigConnectivity value
  else inr (CDict value).

(** [validator_classes] keyed by the heatmap-type string. *)
Definition validator_classes : list (string * list string) :=
  [("modified_gaussian", HeatmapConfigGravity_fields);
   ("combined_cumulative_modified_gaussian", HeatmapConfigCombinedGravity_fields);
   ("closest_average", HeatmapClosestAverage_fields)].

Fixpoint str_assoc (k : string) (l : list (string * list string)) : option (list string) :=
  match l with
  | [] => None
  | (k', v) :: l => if bool_decide (k' = k) then Some v else str_assoc k l
  end.

(** [for category in heatmap_config: validator_class(...)] with the keys of [heatmap_config[category]] *)
Fixpoint validate_categories (fields : list string) (d : pydict) : vres unit :=
  match d with
  | [] => inr tt
  | (_, v) :: d => LET _ <-? validate_model fields v IN validate_categories fields d
  end.

(** [heatmap_config_schema] *)
Definition heatmap_config_schema (heatmap_type : HeatmapType) (value : config) : vres config :=
  if decide (heatmap_type = connectivity) then inr value
  else
    match str_assoc (HeatmapType_value heatmap_type) validator_classes with
    | None => inl (ValidationError ("Validation for type " ++ HeatmapType_value heatmap_type
                                    ++ " not found."))
    | Some fields =>
        match value with
        | CDict d => LET _ <-? validate_categories fields d IN inr value
        | CConnectivity _ => inl (ValidationError "argument is not iterable")
        end
    end.

(** Validation of the [heatmap_config] field, given the already validated
    [heatmap_type]: the [pre] validator, the [dict] type, then the two field
    validators in their order of declaration. *)
Definition validate_heatmap_config (heatmap_type : HeatmapType) (value : json) : vres config :=
  LET v <-? pass_poi_to_heatmap_config value IN
  LET d <-? dict_validator v IN
  LET c <-? heatmap_config_schema_connectivity heatmap_type d IN
  heatmap_config_schema heatmap_type c.

End Validation.

(* ------------------------------------------------------------------ *)
(** ** The travel-time matrix cache writer [save_traveltime_matrix]

    The file system is a set of directories and a map from file paths to
    [.npz] contents; paths are lists of path components.  The code runs in a
    state monad with exceptions: an exception keeps the effects performed
    before it. *)
Module Cache.

(** Column entries of [traveltimeobjs]: Python ints and strings (the
    columns are lists of scalars; nested lists are not modelled). *)
#[local] Set Warnings "-register-all".
Inductive pyval : Type :=
  | PStr (s : string)
  | PInt (z : Z).

(** The arrays [np.array] builds from a list of scalars:
    - [ObjArray]: [dtype=object], holding the Python objects;
    - [IntArray]: int64, when every entry is an int in int64's range;
    - [StrArray]: a unicode array, when some entry is a string (numpy
      converts the ints with [str]);
    - [WideIntArray]: ints, some outside int64's range; numpy picks uint64,
      float64 or object from the values, kept here as the Python ints. *)
Inductive ndarray : Type :=
  | ObjArray (l : list pyval)
  | IntArray (l : list Z)
  | StrArray (l : list string)
  | WideIntArray (l : list Z).

Definition npz : Type := list (string * ndarray).
Definition path : Type := list string.

Record fs : Type := mkfs { fs_dirs : gset path; fs_files : gmap path npz }.

Definition io (A : Type) : Type := fs -> fs * (string + A).

Definition io_ret {A} (x : A) : io A := fun s => (s, inr x).
Definition io_raise {A} (e : string) : io A := fun s => (s, inl e).
Definition io_bind {A B} (m : io A) (k : A -> io B) : io B :=
  fun s => match m s with
           | (s', inl e) => (s', inl e)
           | (s', inr x) => k x s'
           end.

Notation "'DO' x <- m 'IN' k" := (io_bind m (fun x => k))
  (at level 200, x name, m at level 100, k at level 200).

Definition is_str (v : pyval) : bool := match v with PStr _ => true | PInt _ => false end.

(** [str(v)] *)
Definition py_str (v : pyval) : string := match v with PStr s => s | PInt z => pretty z end.

Definition int_of (v : pyval) : Z := match v with PInt z => z | PStr _ => 0 end.

Definition in_int64 (z : Z) : bool := (- 2 ^ 63 <=? z)%Z && (z <? 2 ^ 63)%Z.

(** [np.array(col)] *)
Definition np_array (col : list pyval) : ndarray :=
  if existsb is_str col then StrArray (map py_str col)
  else if forallb (fun v => in_int64 (int_of v)) col then IntArray (map int_of col)
  else WideIntArray (map int_of col).

(** The branch on [isinstance(traveltimeobjs[key][0], str)]. *)
Definition array_of (col : list pyval) : ndarray :=
  match col with
  | PStr _ :: _ => ObjArray col
  | _ => np_array col
  end.

(** [traveltimeobjs[key][0]]: [IndexError] on an empty column. *)
Definition to_ndarray (col : list pyval) : option ndarray :=
  match col with
  | [] => None
  | _ => Some (array_of col)
  end.

(** [for key in traveltimeobjs.keys(): traveltimeobjs[key] = np.array(...)],
    over the dict's items (distinct keys) in order. *)
Fixpoint convert (traveltimeobjs : list (string * list pyval)) : io npz :=
  match traveltimeobjs with
  | [] => io_ret []
  | (k, col) :: objs =>
      match to_ndarray col with
      | None => io_raise "IndexError"
      | Some arr => DO rest <- convert objs IN io_ret ((k, arr) :: rest)
      end
  end.

(** The arrays [convert] builds from non-empty columns. *)
Definition converted (objs : list (string * list pyval)) : npz :=
  map (fun kc => (kc.1, array_of kc.2)) objs.

(** [os.path.exists(p)]: a directory or a file. *)
Definition path_exists (p : path) : io bool :=
  fun s => (s, inr (bool_decide (p ∈ fs_dirs s) || bool_decide (p ∈ dom (fs_files s)))).

Definition prefixes (p : path) : list path := map (fun n => take n p) (seq 1 (length p)).

(** [os.makedirs(d)]: creates every missing component; [FileExistsError]
    if [d] is a file, [NotADirectoryError] if a component above it is. *)
Definition makedirs (d : path) : io unit :=
  fun s =>
    if bool_decide (d ∈ dom (fs_files s)) then (s, inl "FileExistsError")
    else if existsb (fun q => bool_decide (q ∈ dom (fs_files s))) (prefixes d)
    then (s, inl "NotADirectoryError")
    else (mkfs (fs_dirs s ∪ list_to_set (prefixes d)) (fs_files s), inr tt).

(** Modelled from the spec: [src.utils.delete_file], which is not part of
    the sources; "store first removes any prior file at the same key". *)
Definition delete_file (p : path) : io unit :=
  fun s => (mkfs (fs_dirs s) (delete p (fs_files s)), inr tt).

(** [np.savez_compressed(file, *args, **kwds)] with the arrays as keyword
    arguments, for a name already ending in [.npz]: a column named [file]
    collides with the first parameter ([TypeError]); otherwise the call
    (over)writes the file, whose parent must be a directory
    ([FileNotFoundError], or [NotADirectoryError] below a file) and which
    must not be a directory ([IsADirectoryError]). *)
Definition savez_compressed (p : path) (arrays : npz) : io unit :=
  fun s =>
    if existsb (fun ka => bool_decide (ka.1 = "file"%string)) arrays
    then (s, inl "TypeError")
    else if bool_decide (removelast p ∈ fs_dirs s) then
      if bool_decide (p ∈ fs_dirs s) then (s, inl "IsADirectoryError")
      else (mkfs (fs_dirs s) (<[p := arrays]> (fs_files s)), inr tt)
    else if existsb (fun q => bool_decide (q ∈ dom (fs_files s))) (prefixes (removelast p))
    then (s, inl "NotADirectoryError")
    else (s, inl "FileNotFoundError").

(** [save_traveltime_matrix(bulk_id, traveltimeobjs, isochrone_dto)] with
    [settings.TRAVELTIME_MATRICES_PATH = base_path], [isochrone_dto.mode.value
    = mode] and [isochrone_dto.settings.walking_profile.value = profile]. *)
Definition save_traveltime_matrix (base_path : path) (bulk_id : Z)
    (traveltimeobjs : list (string * list pyval)) (mode profile : string) : io unit :=
  DO arrays <- convert traveltimeobjs IN
  let file_name := (pretty bulk_id ++ ".npz")%string in
  let directory := base_path ++ [mode; profile] in
  DO ex <- path_exists directory IN
  DO _u <- (if ex then io_ret tt else makedirs directory) IN
  let file_dir := directory ++ [file_name] in
  DO _u <- delete_file file_dir IN
  savez_compressed file_dir arrays.

End Cache.

(* ------------------------------------------------------------------ *)
(** ** Scenario 1: the segmented primitives on twelve samples *)
Module Scenario1.

Import Aggregator.
Local Open Scope Qc_scope.

Definition grid_ids : list Z := [1; 1; 1; 2; 2; 2; 3; 3; 3; 4; 4; 4]%Z.
Definition travel_times : list Qc := map qz [1; 2; 3; 4; 5; 6; 7; 8; 9; 10; 11; 12]%Z.

(** The caller's use of the aggregator: the primitives run on the sorted
    travel-time column [sorted_table[:, 1]] and [unique]. *)
Definition primitives (g : list Z) (tt : list Qc)
  : option (list Z * list nat * pyres (list (option Qc)) * pyres (list Qc) * pyres (list nat)) :=
  match sort_and_unique_by_grid_ids g tt with
  | Some (st, u) =>
      let sorted_tt := map snd st in
      Some (u.1, u.2, medians sorted_tt u, mins sorted_tt u, counts sorted_tt u)
  | None => None
  end.

End Scenario1.

(* ================================================================== *)
(** * Properties *)

(** C1 (as stated, refuted): with four groups of three, the medians are not
    [2,5,7,10] and the minima are not [1,4,6,9]. *)
Lemma C1_scenario_counterexample :
  match Scenario1.primitives Scenario1.grid_ids Scenario1.travel_times with
  | Some (_, _, Aggregator.PyRet med, Aggregator.PyRet mn, _) =>
      med <> map (fun z => Some (Aggregator.qz z)) [2; 5; 7; 10]%Z /\
      mn <> map Aggregator.qz [1; 4; 6; 9]%Z
  | _ => False
  end.
Proof.
  vm_compute. split; intros H; congruence.
Qed.

(** C1 (amended): for [travel_times = [1..12]] in four groups of three
    (offsets [0,3,6,9]), [medians] returns [2,5,8,11], [mins] returns
    [1,4,7,10] and [counts] returns [3,3,3,3]. *)
Theorem C1_scenario_primitives :
  Scenario1.primitives Scenario1.grid_ids Scenario1.travel_times
  = Some ([1; 2; 3; 4]%Z, [0; 3; 6; 9]%nat,
          Aggregator.PyRet (map (fun z => Some (Aggregator.qz z)) [2; 5; 8; 11]%Z),
          Aggregator.PyRet (map Aggregator.qz [1; 4; 7; 10]%Z),
          Aggregator.PyRet [3; 3; 3; 3]%nat).
Proof. vm_compute. reflexivity. Qed.

(** C2 (as stated, refuted): on eighteen rows with the same grid id,
    numpy's quicksort argsort (the portable introsort) does not keep the
    input order of the rows. *)
Lemma C2_unstable_counterexample :
  match Aggregator.sort_and_unique_by_grid_ids (repeat 5%Z 18)
          (map Aggregator.qz (map Z.of_nat (seq 0 18))) with
  | Some (st, _) =>
      map snd st = map Aggregator.qz [0; 15; 14; 13; 12; 11; 10; 9; 8; 7; 6; 5; 4; 3; 2; 1; 16; 17]%Z
      /\ map snd st <> map Aggregator.qz (map Z.of_nat (seq 0 18))
  | None => False
  end.
Proof. vm_compute. split; [reflexivity | congruence]. Qed.

(** C3 (code defect): with scores [[-1, 1]] and [NQ = 5], the negative score
    is never written: slot 0 keeps the [np.empty] value instead of class 0. *)
Theorem C3_negative_score_unassigned :
  Classify.quantile_classify
    (Some [Classify.Num (Aggregator.qz (-1)); Classify.Num (Aggregator.qz 1)]) 5
  = Aggregator.PyRet [None; Some 5%Z].
Proof. vm_compute. reflexivity. Qed.


(** C10 (code defect): storing a matrix whose columns are empty raises
    [IndexError] at [traveltimeobjs[key][0]], before any directory or file
    is created: nothing is stored and the file system is unchanged. *)
Theorem C10_empty_columns_not_stored (base_path : Cache.path) (bulk_id : Z)
    (mode profile : string) (s : Cache.fs) :
  Cache.save_traveltime_matrix base_path bulk_id
    [("grid_ids", []); ("travel_times", [])] mode profile s
  = (s, inl "IndexError"%string).
Proof. reflexivity. Qed.

Module ValidationFacts.

Import Validation.

Lemma heatmap_config_schema_cumulative (c : config) :
  heatmap_config_schema cumulative c
  = inl (ValidationError "Validation for type cumulative not found.").
Proof. reflexivity. Qed.

Lemma pass_poi_obj (kvs : list (string * json)) :
  exists v, pass_poi_to_heatmap_config (JObj kvs) = inr v.
Proof.
  unfold pass_poi_to_heatmap_config.
  destruct (dict_get _ _) as [poi|]; [destruct (truthy poi)|]; eauto.
Qed.

Lemma pass_poi_not_obj (value : json) :
  match value with JObj _ => True | _ => exists msg,
    pass_poi_to_heatmap_config value = inl (AttributeError msg) end.
Proof. destruct value; simpl; eauto. Qed.

Lemma required_ints_iff (fields : list string) (kw : pydict) :
  required_ints fields kw = true <->
  forall f, In f fields -> exists x z, dict_get (KStr f) kw = Some x /\ int_value x = Some z.
Proof.
  unfold required_ints. rewrite forallb_forall. split.
  - intros H f Hf. specialize (H f Hf).
    destruct (dict_get (KStr f) kw) as [x|]; [|discriminate].
    unfold int_validator in H. destruct (int_value x) as [z|] eqn:Ez; [|discriminate].
    exists x, z. split; [reflexivity | exact Ez].
  - intros H f Hf. destruct (H f Hf) as (x & z & -> & Hz).
    unfold int_validator. by rewrite Hz.
Qed.

Lemma validate_categories_iff (fields : list string) (d : pydict) :
  validate_categories fields d = inr tt <->
  forall k v, In (k, v) d ->
  exists kw, kwargs_of v = Some kw /\ required_ints fields kw = true.
Proof.
  induction d as [|[k0 v0] d IH]; simpl.
  - split; [intros _ k v []|reflexivity].
  - unfold validate_model, vbind.
    destruct (kwargs_of v0) as [kw0|] eqn:Ekw.
    2:{ split; [discriminate|]. intros H. destruct (H k0 v0 (or_introl eq_refl)) as (kw & Hkw & _).
        congruence. }
    destruct (required_ints fields kw0) eqn:Er.
    2:{ split; [discriminate|]. intros H. destruct (H k0 v0 (or_introl eq_refl)) as (kw & Hkw & Hr).
        congruence. }
    rewrite IH. split.
    + intros H k v [Heq|Hin]; [injection Heq as <- <-; eauto|exact (H k v Hin)].
    + intros H k v Hin. exact (H k v (or_intror Hin)).
Qed.

(** For a heatmap type other than connectivity whose validator class has the
    fields [fields], validation accepts exactly the values whose
    (poi-unwrapped) dict has, in every category, a mapping holding each of
    [fields] with an integer-valid value; it returns that dict. *)
Lemma validate_class_iff (t : HeatmapType) (fields : list string) (value : json) (c : config) :
  t <> connectivity ->
  str_assoc (HeatmapType_value t) validator_classes = Some fields ->
  validate_heatmap_config t value = inr c <->
  exists v d, pass_poi_to_heatmap_config value = inr v /\ dict_validator v = inr d /\
    c = CDict d /\
    forall k x, In (k, x) d -> exists kw, kwargs_of x = Some kw /\
      forall f, In f fields -> exists y z, dict_get (KStr f) kw = Some y /\ int_value y = Some z.
Proof.
  intros Ht Hf. unfold validate_heatmap_config, vbind.
  destruct (pass_poi_to_heatmap_config value) as [e|v].
  { split; [discriminate|]. intros (v & d & H & _). discriminate. }
  destruct (dict_validator v) as [e|d] eqn:Ed.
  { split; [discriminate|]. intros (v' & d & H & H' & _). injection H as <-. congruence. }
  unfold heatmap_config_schema_connectivity, heatmap_config_schema.
  rewrite !decide_False by exact Ht. rewrite Hf. unfold vbind.
  assert (Hcat : validate_categories fields d = inr tt <->
                 forall k x, In (k, x) d -> exists kw, kwargs_of x = Some kw /\
                   forall f, In f fields -> exists y z, dict_get (KStr f) kw = Some y /\
                                                        int_value y = Some z).
  { rewrite validate_categories_iff. split.
    - intros H k x Hin. destruct (H k x Hin) as (kw & Hkw & Hr).
      exists kw. split; [exact Hkw|]. by apply required_ints_iff.
    - intros H k x Hin. destruct (H k x Hin) as (kw & Hkw & Hr).
      exists kw. split; [exact Hkw|]. by apply required_ints_iff. }
  destruct (validate_categories fields d) as [e|[]] eqn:Ev.
  - split; [discriminate|]. intros (v' & d' & H1 & H2 & _ & Hall).
    injection H1 as <-. rewrite Ed in H2. injection H2 as <-.
    apply Hcat in Hall. discriminate.
  - split.
    + intros H. injection H as <-. exists v, d. split; [reflexivity|]. split; [exact Ed|].
      split; [reflexivity|]. by apply Hcat.
    + intros (v' & d' & H1 & H2 & -> & _). injection H1 as <-. rewrite Ed in H2.
      injection H2 as <-. reflexivity.
Qed.

End ValidationFacts.


(** C9: a [cumulative] heatmap configuration is always rejected: a dict
    config with a [ValidationError] ("Validation for type cumulative not
    found."), any other value already by [value.get]; so only
    [modified_gaussian], [combined_cumulative_modified_gaussian],
    [closest_average] and [connectivity] configurations can pass. *)
Theorem C9_cumulative_always_rejected :
  (forall value : Validation.json,
     exists e, Validation.validate_heatmap_config Validation.cumulative value = inl e) /\
  (forall kvs : list (string * Validation.json),
     exists msg, Validation.validate_heatmap_config Validation.cumulative (Validation.JObj kvs)
                 = inl (Validation.ValidationError msg)) /\
  (forall (heatmap_type : Validation.HeatmapType) (value : Validation.json),
     match Validation.validate_heatmap_config heatmap_type value with
     | inr _ => heatmap_type = Validation.modified_gaussian
                \/ heatmap_type = Validation.combined_cumulative_modified_gaussian
                \/ heatmap_type = Validation.closest_average
                \/ heatmap_type = Validation.connectivity
     | inl _ => True
     end).
Proof.
  assert (Hobj : forall kvs, exists msg,
    Validation.validate_heatmap_config Validation.cumulative (Validation.JObj kvs)
    = inl (Validation.ValidationError msg)).
  { intros kvs. unfold Validation.validate_heatmap_config.
    destruct (ValidationFacts.pass_poi_obj kvs) as [v ->]. simpl.
    destruct (Validation.dict_validator v) as [e|d] eqn:Hd.
    - unfold Validation.dict_validator in Hd.
      destruct v; repeat case_match; try discriminate; injection Hd as <-; eauto.
    - simpl. eauto. }
  split; [|split; [exact Hobj|]].
  - intros value. destruct value; try (destruct (Hobj kvs); eauto; fail);
      eexists; reflexivity.
  - intros heatmap_type value.
    destruct (Validation.validate_heatmap_config heatmap_type value) eqn:Hv; [exact I|].
    destruct heatmap_type; auto.
    destruct value; try discriminate Hv.
    destruct (Hobj kvs) as [msg Hm]. congruence.
Qed.

(* ------------------------------------------------------------------ *)
(** ** The gaussian kernels sum per-sample contributions *)
Module DecayFacts.

Local Open Scope R_scope.
Import Aggregator.

Lemma py_div_nonzero (x y : R) : y <> 0 -> Decay.py_div x y = PyRet (x / y).
Proof. intros Hy. unfold Decay.py_div. destruct (Req_EM_T y 0); [contradiction|reflexivity]. Qed.

Lemma py_div_zero (x : R) : Decay.py_div x 0 = PyRaise "ZeroDivisionError"%string.
Proof. unfold Decay.py_div. destruct (Req_EM_T 0 0); [reflexivity|contradiction]. Qed.

Lemma neg_mul_div (t s : R) : (- t) * t / s = - t ^ 2 / s.
Proof. unfold Rdiv. ring. Qed.

Lemma per_hour (x : R) : x / (60 * 60) = x / 3600.
Proof. f_equal. ring. Qed.

Lemma per_hour_nonzero (x : R) : x <> 0 -> x / (60 * 60) <> 0.
Proof.
  intros Hx H. apply Hx.
  replace x with (x / (60 * 60) * (60 * 60)) by field. rewrite H. ring.
Qed.

Lemma per_hour_zero : 0 / (60 * 60) = 0.
Proof. unfold Rdiv. ring. Qed.

(** With a non-zero [sensitivity_] the loop over a group adds up the
    contributions of its samples within the cutoff. *)
Lemma modified_segment_sum (s cutoff : R) (seg : list R) (sum : R) :
  s <> 0 ->
  Decay.modified_gaussian_segment s cutoff seg sum
  = PyRet (sum + Decay.guarded cutoff (fun t => exp ((- t) * t / s)) seg).
Proof.
  intros Hs. unfold Decay.guarded. revert sum.
  induction seg as [|t seg IH]; intros sum;
    cbn [Decay.modified_gaussian_segment map fold_right]; [f_equal; ring|].
  destruct (Rlt_dec cutoff t), (Rle_dec t cutoff); try lra.
  - rewrite IH. f_equal. ring.
  - rewrite py_div_nonzero by exact Hs. rewrite IH. f_equal. ring.
Qed.

Lemma combined_segment_sum (s cutoff st : R) (seg : list R) (sum : R) :
  s <> 0 ->
  Decay.combined_modified_gaussian_segment s cutoff st seg sum
  = PyRet (sum + Decay.guarded cutoff
                   (fun t => if Rle_dec t st then 1 else exp ((- (t - st)) * (t - st) / s)) seg).
Proof.
  intros Hs. unfold Decay.guarded. revert sum.
  induction seg as [|t seg IH]; intros sum;
    cbn [Decay.combined_modified_gaussian_segment map fold_right]; [f_equal; ring|].
  destruct (Rlt_dec cutoff t), (Rle_dec t cutoff); try lra.
  - rewrite IH. f_equal. ring.
  - destruct (Rle_dec t st).
    + rewrite IH. f_equal. ring.
    + rewrite py_div_nonzero by exact Hs. rewrite IH. f_equal. ring.
Qed.

(** The loop over the groups when each group's result is a value or the
    same exception [e]. *)
Lemma per_segment_cases (f : list R -> pyres R) (ok : list R -> bool) (g : list R -> R)
    (e : string) (segs : list (list R)) :
  (forall seg, f seg = if ok seg then PyRet (g seg) else PyRaise e) ->
  Decay.per_segment f segs = if forallb ok segs then PyRet (map g segs) else PyRaise e.
Proof.
  intros Hf. induction segs as [|seg segs IH]; [reflexivity|].
  cbn [Decay.per_segment forallb map]. rewrite Hf, IH.
  destruct (ok seg), (forallb ok segs); reflexivity.
Qed.

Lemma per_segment_ret (f : list R -> pyres R) (g : list R -> R) (segs : list (list R)) :
  (forall seg, f seg = PyRet (g seg)) -> Decay.per_segment f segs = PyRet (map g segs).
Proof.
  intros Hf. rewrite (per_segment_cases f (fun _ => true) g ""%string segs).
  - assert (Ht : forallb (fun _ : list R => true) segs = true)
      by (apply forallb_forall; auto).
    by rewrite Ht.
  - intros seg. exact (Hf seg).
Qed.

Lemma modified_per_grid_ret (travel_times : list R) (unique : list Z * list nat)
    (sensitivity cutoff : R) :
  sensitivity <> 0 ->
  Decay.modified_gaussian_per_grid travel_times unique sensitivity cutoff
  = match travel_times with
    | [] => PyNone
    | _ => PyRet (map (Decay.guarded cutoff
                         (fun t => exp ((- t) * t / (sensitivity / (60 * 60)))))
                      (segments travel_times unique.2))
    end.
Proof.
  intros Hs. unfold Decay.modified_gaussian_per_grid.
  destruct travel_times as [|t0 tts]; [reflexivity|]. cbv zeta.
  apply per_segment_ret. intros seg.
  rewrite modified_segment_sum by (by apply per_hour_nonzero). f_equal. ring.
Qed.

Lemma combined_per_grid_ret (travel_times : list R) (unique : list Z * list nat)
    (sensitivity cutoff st : R) :
  sensitivity <> 0 ->
  Decay.combined_modified_gaussian_per_grid travel_times unique sensitivity cutoff st
  = match travel_times with
    | [] => PyNone
    | _ => PyRet (map (Decay.guarded cutoff
                         (fun t => if Rle_dec t st then 1
                                   else exp ((- (t - st)) * (t - st) / (sensitivity / (60 * 60)))))
                      (segments travel_times unique.2))
    end.
Proof.
  intros Hs. unfold Decay.combined_modified_gaussian_per_grid.
  destruct travel_times as [|t0 tts]; [reflexivity|]. cbv zeta.
  apply per_segment_ret. intros seg.
  rewrite combined_segment_sum by (by apply per_hour_nonzero). f_equal. ring.
Qed.

End DecayFacts.

Section GaussianSums.
Local Open Scope R_scope.

(** C7: for a non-zero sensitivity (a zero one makes [-t * t / sensitivity_]
    raise [ZeroDivisionError]), [modified_gaussian_per_grid] returns, for
    every segment, the sum of [exp(-t^2 / s)] over its samples with
    [t <= cutoff] (others contribute 0), [s = sensitivity / 3600]; with
    [sensitivity = 3600], [cutoff = 100] and the single segment [[0, 1, 2]]
    the score is [exp(0) + exp(-1) + exp(-4)]. *)
Theorem C7_modified_gaussian_sum (travel_times : list R) (unique : list Z * list nat)
    (sensitivity cutoff : R) :
  sensitivity <> 0 ->
  Decay.modified_gaussian_per_grid travel_times unique sensitivity cutoff
  = match travel_times with
    | [] => Aggregator.PyNone
    | _ => Aggregator.PyRet
             (map (fun seg => fold_right Rplus 0
                     (map (fun t => if Rle_dec t cutoff
                                    then exp (- t ^ 2 / (sensitivity / 3600)) else 0) seg))
                  (Aggregator.segments travel_times unique.2))
    end
  /\ Decay.modified_gaussian_per_grid [0; 1; 2]%R ([7%Z], [0%nat]) 3600 100
     = Aggregator.PyRet [(exp 0 + exp (-1) + exp (-4))%R].
Proof.
  intros Hs. split.
  - rewrite DecayFacts.modified_per_grid_ret by exact Hs.
    destruct travel_times as [|t0 tts]; [reflexivity|].
    f_equal. apply map_ext. intros seg. unfold Decay.guarded.
    rewrite DecayFacts.per_hour. f_equal. apply map_ext. intros t.
    rewrite DecayFacts.neg_mul_div. reflexivity.
  - rewrite DecayFacts.modified_per_grid_ret by lra.
    change (Aggregator.segments [0; 1; 2]%R ([7%Z], [0%nat]).2) with [[0; 1; 2]%R].
    unfold Decay.guarded. cbn [map fold_right].
    destruct (Rle_dec 0 100); [|lra].
    destruct (Rle_dec 1 100); [|lra].
    destruct (Rle_dec 2 100); [|lra].
    assert (Hs1 : 3600 / (60 * 60) = 1) by field.
    rewrite Hs1.
    replace (Ropp 0 * 0 / 1) with 0 by field.
    replace (Ropp 1 * 1 / 1) with (-1) by field.
    replace (Ropp 2 * 2 / 1) with (-4) by field.
    f_equal. f_equal. ring.
Qed.

(** C7 at the travel times [[0, 1, 2]] in one group, sensitivity 3600 and
    cutoff 100. *)
Lemma C7_modified_gaussian_sum_witness :
  (3600 <> 0) /\
  Decay.modified_gaussian_per_grid [0; 1; 2]%R ([7%Z], [0%nat]) 3600 100
  = match [0; 1; 2]%R with
    | [] => Aggregator.PyNone
    | _ => Aggregator.PyRet
             (map (fun seg => fold_right Rplus 0
                     (map (fun t => if Rle_dec t 100
                                    then exp (- t ^ 2 / (3600 / 3600)) else 0) seg))
                  (Aggregator.segments [0; 1; 2]%R ([7%Z], [0%nat]).2))
    end
  /\ Decay.modified_gaussian_per_grid [0; 1; 2]%R ([7%Z], [0%nat]) 3600 100
     = Aggregator.PyRet [(exp 0 + exp (-1) + exp (-4))%R].
Proof.
  assert (Hs : 3600 <> 0) by lra.
  split; [exact Hs|].
  exact (C7_modified_gaussian_sum _ _ _ _ Hs).
Defined.

End GaussianSums.

Section CombinedGaussianSums.
Local Open Scope R_scope.

(** C6: for a non-zero sensitivity (a zero one makes a sample in
    [(static_traveltime, cutoff]] raise [ZeroDivisionError]),
    [combined_modified_gaussian_per_grid] returns, for every segment, the
    sum over its samples of 0 when [t > cutoff], 1 when
    [t <= static_traveltime], and [exp(-(t - static_traveltime)^2 / s)]
    otherwise, [s = sensitivity / 3600]; with [static_traveltime = 5],
    [cutoff = 20] and the segment [[3, 5, 10, 25]] the score is
    [1 + 1 + exp(-25/s) + 0]. *)
Theorem C6_combined_gaussian_sum (travel_times : list R) (unique : list Z * list nat)
    (sensitivity cutoff static_traveltime : R) :
  sensitivity <> 0 ->
  Decay.combined_modified_gaussian_per_grid travel_times unique sensitivity cutoff
    static_traveltime
  = match travel_times with
    | [] => Aggregator.PyNone
    | _ => Aggregator.PyRet
             (map (fun seg => fold_right Rplus 0
                     (map (fun t => if Rle_dec t cutoff
                                    then if Rle_dec t static_traveltime then 1
                                         else exp (- (t - static_traveltime) ^ 2
                                                   / (sensitivity / 3600))
                                    else 0) seg))
                  (Aggregator.segments travel_times unique.2))
    end
  /\ Decay.combined_modified_gaussian_per_grid [3; 5; 10; 25]%R ([7%Z], [0%nat])
       sensitivity 20 5
     = Aggregator.PyRet [(1 + 1 + exp (- 25 / (sensitivity / 3600)) + 0)%R].
Proof.
  intros Hs. split.
  - rewrite DecayFacts.combined_per_grid_ret by exact Hs.
    destruct travel_times as [|t0 tts]; [reflexivity|].
    f_equal. apply map_ext. intros seg. unfold Decay.guarded.
    rewrite DecayFacts.per_hour. f_equal. apply map_ext. intros t.
    destruct (Rle_dec t cutoff), (Rle_dec t static_traveltime); try reflexivity.
    rewrite DecayFacts.neg_mul_div. reflexivity.
  - rewrite DecayFacts.combined_per_grid_ret by exact Hs.
    change (Aggregator.segments [3; 5; 10; 25]%R ([7%Z], [0%nat]).2) with [[3; 5; 10; 25]%R].
    unfold Decay.guarded. cbn [map fold_right].
    destruct (Rle_dec 3 20); [|lra].
    destruct (Rle_dec 3 5); [|lra].
    destruct (Rle_dec 5 20); [|lra].
    destruct (Rle_dec 5 5); [|lra].
    destruct (Rle_dec 10 20); [|lra].
    destruct (Rle_dec 10 5); [lra|].
    destruct (Rle_dec 25 20); [lra|].
    rewrite DecayFacts.per_hour.
    replace (Ropp (10 - 5) * (10 - 5)) with (-25) by ring.
    f_equal. f_equal. ring.
Qed.

(** C6 at sensitivity 3600 on the travel times [[0, 1, 2]] in one group,
    cutoff 100 and [static_traveltime = 5]. *)
Lemma C6_combined_gaussian_sum_witness :
  (3600 <> 0) /\
  Decay.combined_modified_gaussian_per_grid [0; 1; 2]%R ([7%Z], [0%nat]) 3600 100 5
  = match [0; 1; 2]%R with
    | [] => Aggregator.PyNone
    | _ => Aggregator.PyRet
             (map (fun seg => fold_right Rplus 0
                     (map (fun t => if Rle_dec t 100
                                    then if Rle_dec t 5 then 1
                                         else exp (- (t - 5) ^ 2 / (3600 / 3600))
                                    else 0) seg))
                  (Aggregator.segments [0; 1; 2]%R ([7%Z], [0%nat]).2))
    end
  /\ Decay.combined_modified_gaussian_per_grid [3; 5; 10; 25]%R ([7%Z], [0%nat]) 3600 20 5
     = Aggregator.PyRet [(1 + 1 + exp (- 25 / (3600 / 3600)) + 0)%R].
Proof.
  assert (Hs : 3600 <> 0) by lra.
  split; [exact Hs|].
  exact (C6_combined_gaussian_sum _ _ _ _ _ Hs).
Defined.

End CombinedGaussianSums.

(* ------------------------------------------------------------------ *)
(** ** Segment offsets of the aggregator *)
Module AggregatorFacts.
Import Aggregator.

Lemma merge_sort_sorted (ar : list Z) : Sorted Z.le ar -> merge_sort Z.le ar = ar.
Proof.
  intros Hs. assert (Total Z.le) by (intros x y; lia).
  apply (Sorted_unique Z.le); [by apply Sorted_merge_sort | exact Hs |].
  apply merge_sort_Permutation.
Qed.

Lemma first_index_lt_length (u : Z) (ar : list Z) :
  u ∈ ar -> (first_index u ar < length ar)%nat.
Proof.
  induction ar as [|y ar IH]; simpl; intros Hu; [by apply elem_of_nil in Hu|].
  destruct (Z.eqb_spec y u); [lia|].
  apply elem_of_cons in Hu as [->|Hu]; [congruence|]. specialize (IH Hu). lia.
Qed.

Lemma first_index_head (y : Z) (ar : list Z) : first_index y (y :: ar) = 0%nat.
Proof. simpl. by rewrite Z.eqb_refl. Qed.

(** On a sorted array the first occurrence is strictly monotone. *)
Lemma first_index_mono (ar : list Z) (u v : Z) :
  StronglySorted Z.le ar -> u ∈ ar -> v ∈ ar -> u < v ->
  (first_index u ar < first_index v ar)%nat.
Proof.
  induction ar as [|y ar IH]; intros Hs Hu Hv Huv; [by apply elem_of_nil in Hu|].
  apply StronglySorted_inv in Hs as [Hs Hall]. simpl.
  rewrite List.Forall_forall in Hall.
  destruct (Z.eqb_spec y u), (Z.eqb_spec y v); try lia.
  - apply elem_of_cons in Hu as [->|Hu]; [congruence|].
    apply list_elem_of_In, Hall in Hu. lia.
  - apply elem_of_cons in Hu as [->|Hu]; [congruence|].
    apply elem_of_cons in Hv as [->|Hv]; [congruence|].
    specialize (IH Hs Hu Hv Huv). lia.
Qed.

Lemma uniq_from_spec (prev : Z) (aux : list Z) :
  StronglySorted Z.le (prev :: aux) ->
  StronglySorted Z.lt (prev :: uniq_from prev aux) /\
  (forall u, u ∈ uniq_from prev aux -> u ∈ aux).
Proof.
  revert prev. induction aux as [|y aux IH]; intros prev Hs; simpl.
  - split; [repeat constructor|]. intros u Hu. by apply elem_of_nil in Hu.
  - apply StronglySorted_inv in Hs as [Hs Hall].
    apply Forall_cons_iff in Hall as [Hpy Hall].
    destruct (Z.eqb_spec y prev) as [->|Hne].
    + destruct (IH prev) as [IH1 IH2]; [by constructor; [apply StronglySorted_inv in Hs as []|]|].
      split; [exact IH1|]. intros u Hu. apply elem_of_cons. right. by apply IH2.
    + destruct (IH y Hs) as [IH1 IH2]. split.
      * constructor; [exact IH1|].
        apply StronglySorted_inv in IH1 as [_ Hy].
        constructor; [lia|]. eapply List.Forall_impl; [|exact Hy]. simpl. lia.
      * intros u Hu. apply elem_of_cons in Hu as [->|Hu]; apply elem_of_cons; auto.
Qed.

Lemma uniq_sorted_spec (ar : list Z) :
  StronglySorted Z.le ar ->
  StronglySorted Z.lt (uniq_sorted ar) /\ (forall u, u ∈ uniq_sorted ar -> u ∈ ar) /\
  head (uniq_sorted ar) = head ar.
Proof.
  destruct ar as [|y aux]; simpl; intros Hs.
  - split; [constructor|]. split; [|reflexivity]. intros u Hu. by apply elem_of_nil in Hu.
  - destruct (uniq_from_spec y aux Hs) as [H1 H2]. split; [exact H1|]. split; [|reflexivity].
    intros u Hu. apply elem_of_cons in Hu as [->|Hu]; apply elem_of_cons; auto.
Qed.

Lemma StronglySorted_map_mono (f : Z -> nat) (P : Z -> Prop) (l : list Z) :
  (forall u v, P u -> P v -> u < v -> (f u < f v)%nat) ->
  Forall P l -> StronglySorted Z.lt l -> StronglySorted lt (map f l).
Proof.
  intros Hf. induction l as [|x l IH]; intros HP Hs; simpl; [constructor|].
  apply Forall_cons_iff in HP as [Hx HP]. apply StronglySorted_inv in Hs as [Hs Hall].
  constructor; [by apply IH|].
  apply List.Forall_map. rewrite List.Forall_forall in HP, Hall |- *. intros y Hy.
  apply Hf; auto.
Qed.

Lemma StronglySorted_snoc_lt (l : list nat) (n : nat) :
  StronglySorted lt l -> Forall (fun x => x < n)%nat l -> StronglySorted lt (l ++ [n]).
Proof.
  induction l as [|x l IH]; intros Hs Hb; simpl; [repeat constructor|].
  apply StronglySorted_inv in Hs as [Hs Hall]. apply Forall_cons_iff in Hb as [Hx Hb].
  constructor; [by apply IH|]. apply List.Forall_app. split; [exact Hall|].
  by constructor.
Qed.

Lemma slice_app {A} (l : list A) (a b c : nat) :
  (a <= b)%nat -> (b <= c)%nat -> slice l a b ++ slice l b c = slice l a c.
Proof.
  intros Hab Hbc. unfold slice.
  replace (drop b l) with (drop (b - a) (drop a l))
    by (rewrite drop_drop; f_equal; lia).
  rewrite take_take_drop. f_equal. lia.
Qed.

(** Consecutive half-open slices between sorted bounds cover the slice
    between the first and the last bound. *)
Lemma concat_bounded_slices {A} (l : list A) (lo : nat) (his : list nat) (e : nat) :
  StronglySorted lt (lo :: his ++ [e]) ->
  concat (bounded_slices l lo (his ++ [e])) = slice l lo e.
Proof.
  revert lo. induction his as [|h his IH]; intros lo Hs; simpl.
  - by rewrite app_nil_r.
  - apply StronglySorted_inv in Hs as [Hs Hall]. rewrite IH by exact Hs.
    apply slice_app.
    + apply Forall_cons_iff in Hall as [Hh _]. lia.
    + apply StronglySorted_inv in Hs as [_ Hall'].
      rewrite List.Forall_forall in Hall'.
      assert (e ∈ his ++ [e]) as He by (apply elem_of_app; right; by left).
      apply list_elem_of_In in He. specialize (Hall' e He). lia.
Qed.

Lemma keys_take_rows (t : list row) (perm : list nat) :
  map fst (take_rows t perm) = map (fun i => nth i (map fst t) 0%Z) perm.
Proof.
  unfold take_rows. rewrite map_map. apply map_ext. intros i.
  change 0%Z with (fst (0%Z, 0%Qc)). by rewrite map_nth.
Qed.

End AggregatorFacts.

(** C5: for every grid-id permutation meeting numpy's argsort contract, the
    aggregator's outputs [(sorted_table, (unique_grid_ids, offsets))] have as
    many offsets as distinct ids; the offsets followed by the row count are
    strictly increasing; the first offset is 0 (there is none on an empty
    input); the half-open segments between consecutive bounds concatenate to
    the sorted travel times; and the sorted table has one row per input
    sample. *)
Theorem C5_offsets_partition (grid_ids : list Z) (travel_times : list Qc)
    (tab : list Aggregator.row) (perm : list nat) :
  Aggregator.table grid_ids travel_times = Some tab ->
  Aggregator.is_argsort (map fst tab) perm ->
  let '(sorted_table, (unique_grid_ids, offsets)) := Aggregator.sort_and_unique_with perm tab in
  length unique_grid_ids = length offsets /\
  StronglySorted lt (offsets ++ [length sorted_table]) /\
  head offsets = match grid_ids with [] => None | _ => Some 0%nat end /\
  concat (Aggregator.segments (map snd sorted_table) offsets) = map snd sorted_table /\
  length sorted_table = length travel_times.
Proof.
  intros Htab [Hperm Hsorted].
  unfold Aggregator.table in Htab.
  case_decide as Hlen; [|discriminate]. injection Htab as <-.
  unfold Aggregator.sort_and_unique_with, Aggregator.np_unique_index.
  set (st := Aggregator.take_rows _ perm).
  set (ar := map fst st).
  assert (Hlst : length st = length travel_times).
  { unfold st, Aggregator.take_rows. rewrite length_map, Hperm, length_seq, length_map,
      length_zip, length_map. lia. }
  assert (Har : Sorted Z.le ar).
  { unfold ar, st. by rewrite AggregatorFacts.keys_take_rows. }
  assert (Transitive Z.le) by (intros x y z; lia).
  assert (HarS : StronglySorted Z.le ar) by (by apply Sorted_StronglySorted).
  rewrite (AggregatorFacts.merge_sort_sorted ar Har).
  destruct (AggregatorFacts.uniq_sorted_spec ar HarS) as (Hus & Hmem & Hhd).
  set (us := Aggregator.uniq_sorted ar) in *.
  set (offs := map (fun u => Aggregator.first_index u ar) us).
  assert (Hlar : length ar = length st) by (unfold ar; by rewrite length_map).
  assert (Hoffs : StronglySorted lt (offs ++ [length st])).
  { apply AggregatorFacts.StronglySorted_snoc_lt.
    - apply (AggregatorFacts.StronglySorted_map_mono _ (fun u => u ∈ ar)); [|by apply List.Forall_forall; intros u Hu; apply Hmem, list_elem_of_In|exact Hus].
      intros u v Hu Hv Huv. by apply AggregatorFacts.first_index_mono.
    - apply List.Forall_map, List.Forall_forall. intros u Hu.
      rewrite <- Hlar. apply AggregatorFacts.first_index_lt_length, Hmem, list_elem_of_In, Hu. }
  assert (Eoffs : offs = map (fun u => Aggregator.first_index u ar) us) by reflexivity.
  assert (Ear : ar = map fst st) by reflexivity.
  clearbody offs us ar st.
  (* the first offset is the first occurrence of the smallest id, 0 *)
  assert (Hhead : head offs = match ar with [] => None | _ => Some 0%nat end).
  { subst offs. destruct ar as [|y ar'].
    - destruct us; [reflexivity|discriminate].
    - destruct us as [|u0 us']; [discriminate|]. simpl in Hhd |- *.
      injection Hhd as ->. by rewrite Z.eqb_refl. }
  split; [subst offs; by rewrite length_map|].
  split; [exact Hoffs|].
  split.
  - rewrite Hhead. destruct ar as [|y ar'], grid_ids as [|g gs]; try reflexivity.
    + simpl in Hlar. rewrite <- Hlar, <- Hlen in Hlst. discriminate.
    + simpl in Hlar. rewrite <- Hlar, <- Hlen in Hlst. discriminate.
  - split; [|exact Hlst].
    unfold Aggregator.segments. rewrite length_map.
    destruct offs as [|o0 os].
    + destruct ar; [|discriminate]. destruct st; [reflexivity|discriminate].
    + simpl. rewrite AggregatorFacts.concat_bounded_slices by exact Hoffs.
      assert (o0 = 0%nat) as ->.
      { destruct ar; [discriminate|]. simpl in Hhead. congruence. }
      unfold Aggregator.slice. rewrite drop_0, Nat.sub_0_r.
      by rewrite take_ge by (rewrite length_map; lia).
Qed.

(** C5 at grid ids [[2, 1, 2]] with the argsort [[1, 0, 2]]. *)
Lemma C5_offsets_partition_witness :
  Aggregator.table [2; 1; 2] (map Aggregator.qz [5; 6; 7])
    = Some (zip [2; 1; 2] (map Aggregator.qz [5; 6; 7])) /\
  Aggregator.is_argsort (map fst (zip [2; 1; 2] (map Aggregator.qz [5; 6; 7]))) [1; 0; 2]%nat /\
  let '(sorted_table, (unique_grid_ids, offsets)) :=
    Aggregator.sort_and_unique_with [1; 0; 2]%nat (zip [2; 1; 2] (map Aggregator.qz [5; 6; 7])) in
  length unique_grid_ids = length offsets /\
  StronglySorted lt (offsets ++ [length sorted_table]) /\
  head offsets = match [2; 1; 2] with [] => None | _ => Some 0%nat end /\
  concat (Aggregator.segments (map snd sorted_table) offsets) = map snd sorted_table /\
  length sorted_table = length (map Aggregator.qz [5; 6; 7]).
Proof.
  assert (Ht : Aggregator.table [2; 1; 2] (map Aggregator.qz [5; 6; 7])
               = Some (zip [2; 1; 2] (map Aggregator.qz [5; 6; 7]))) by reflexivity.
  assert (Hp : Aggregator.is_argsort (map fst (zip [2; 1; 2] (map Aggregator.qz [5; 6; 7])))
                 [1; 0; 2]%nat).
  { split; apply (bool_decide_unpack _); vm_compute; reflexivity. }
  split; [exact Ht|]. split; [exact Hp|].
  exact (C5_offsets_partition _ _ _ _ Ht Hp).
Defined.

Module PermuteFacts.

(** Indexing a list by all of its positions rebuilds it. *)
Lemma map_nth_seq {A} (l : list A) (d : A) :
  map (fun i => nth i l d) (seq 0 (length l)) = l.
Proof.
  induction l as [|x l IH]; simpl; [reflexivity|]. f_equal.
  rewrite <- seq_shift, map_map. exact IH.
Qed.

(** Indexing a list by a permutation of its positions permutes it. *)
Lemma map_nth_perm {A} (l : list A) (d : A) (perm : list nat) :
  perm ≡ₚ seq 0 (length l) -> map (fun i => nth i l d) perm ≡ₚ l.
Proof.
  intros Hp. transitivity (map (fun i => nth i l d) (seq 0 (length l))).
  - by apply Permutation_map.
  - by rewrite map_nth_seq.
Qed.

End PermuteFacts.

(** Grid ids of magnitude at most [2^53] are doubles already: the float64
    table keeps them exactly. *)
Lemma float64_of_int_exact (g : Z) :
  (Z.abs g <= 2 ^ 53)%Z -> Aggregator.float64_of_int g = g.
Proof.
  intros Hg. unfold Aggregator.float64_of_int.
  destruct (Z.ltb_spec (Z.abs g) (2 ^ 53)) as [_|Hge]; [reflexivity|].
  assert (Ha : Z.abs g = (2 ^ 53)%Z) by lia.
  destruct (Z.abs_spec g) as [[_ Hg'] | [_ Hg']]; rewrite Hg' in Ha.
  - subst g. vm_compute. reflexivity.
  - assert (g = (- 2 ^ 53)%Z) as -> by lia. vm_compute. reflexivity.
Qed.

Lemma map_float64_of_int_exact (grid_ids : list Z) :
  Forall (fun g => (Z.abs g <= 2 ^ 53)%Z) grid_ids ->
  map Aggregator.float64_of_int grid_ids = grid_ids.
Proof.
  induction 1 as [|g gs Hg _ IH]; [reflexivity|].
  simpl. by rewrite float64_of_int_exact, IH.
Qed.

(** C2 (amended): [np.vstack] of the grid ids with the float travel times
    is a float64 table, so each grid id becomes the nearest double (exact
    up to [2^53] in magnitude; [2^53 + 1] becomes [2^53]).  For every
    permutation meeting numpy's argsort contract on these ids (numpy's
    default kind is quicksort, which is not stable), the sorted table is a
    permutation of the stacked rows whose grid ids are in non-decreasing
    order; the function computes it with the argsort of the grid ids, so
    identical inputs give identical outputs. *)
Theorem C2_sorted_permutation (grid_ids : list Z) (travel_times : list Qc) (perm : list nat) :
  length grid_ids = length travel_times ->
  Aggregator.is_argsort (map Aggregator.float64_of_int grid_ids) perm ->
  let tab := zip (map Aggregator.float64_of_int grid_ids) travel_times in
  Aggregator.table grid_ids travel_times = Some tab /\
  (Aggregator.sort_and_unique_with perm tab).1 ≡ₚ tab /\
  Sorted Z.le (map fst (Aggregator.sort_and_unique_with perm tab).1) /\
  Aggregator.sort_and_unique_by_grid_ids grid_ids travel_times
  = Some (Aggregator.sort_and_unique_with (NpySort.argsort (map fst tab)) tab) /\
  (Forall (fun g => (Z.abs g <= 2 ^ 53)%Z) grid_ids -> tab = zip grid_ids travel_times) /\
  Aggregator.table [(2 ^ 53 + 1)%Z] [Aggregator.qz 0] = Some [((2 ^ 53)%Z, Aggregator.qz 0)].
Proof.
  intros Hlen Hargs tab.
  assert (Htab : Aggregator.table grid_ids travel_times = Some tab).
  { unfold Aggregator.table. by rewrite decide_True. }
  assert (Hfst : map fst tab = map Aggregator.float64_of_int grid_ids).
  { unfold tab. rewrite fst_zip; [reflexivity|]. rewrite length_map. lia. }
  destruct Hargs as [Hperm Hsorted]. rewrite <- Hfst in Hperm, Hsorted.
  split; [exact Htab|]. split; [|split; [|split; [|split]]].
  - simpl. apply PermuteFacts.map_nth_perm. by rewrite length_map in Hperm.
  - simpl. by rewrite AggregatorFacts.keys_take_rows.
  - unfold Aggregator.sort_and_unique_by_grid_ids. by rewrite Htab.
  - intros Hsmall. unfold tab. by rewrite map_float64_of_int_exact.
  - vm_compute. reflexivity.
Qed.

(** C2 (amended) at grid ids [[2, 1, 2]] with the argsort [[1, 0, 2]]. *)
Lemma C2_sorted_permutation_witness :
  length [2; 1; 2]%Z = length (map Aggregator.qz [5; 6; 7]) /\
  Aggregator.is_argsort (map Aggregator.float64_of_int [2; 1; 2]) [1; 0; 2]%nat /\
  let tab := zip (map Aggregator.float64_of_int [2; 1; 2]) (map Aggregator.qz [5; 6; 7]) in
  Aggregator.table [2; 1; 2] (map Aggregator.qz [5; 6; 7]) = Some tab /\
  (Aggregator.sort_and_unique_with [1; 0; 2]%nat tab).1 ≡ₚ tab /\
  Sorted Z.le (map fst (Aggregator.sort_and_unique_with [1; 0; 2]%nat tab).1) /\
  Aggregator.sort_and_unique_by_grid_ids [2; 1; 2] (map Aggregator.qz [5; 6; 7])
  = Some (Aggregator.sort_and_unique_with (NpySort.argsort (map fst tab)) tab) /\
  (Forall (fun g => (Z.abs g <= 2 ^ 53)%Z) [2; 1; 2]%Z ->
   tab = zip [2; 1; 2]%Z (map Aggregator.qz [5; 6; 7])) /\
  Aggregator.table [(2 ^ 53 + 1)%Z] [Aggregator.qz 0] = Some [((2 ^ 53)%Z, Aggregator.qz 0)].
Proof.
  assert (Hl : length [2; 1; 2]%Z = length (map Aggregator.qz [5; 6; 7])) by reflexivity.
  assert (Hp : Aggregator.is_argsort (map Aggregator.float64_of_int [2; 1; 2]) [1; 0; 2]%nat).
  { split; apply (bool_decide_unpack _); vm_compute; reflexivity. }
  split; [exact Hl|]. split; [exact Hp|].
  exact (C2_sorted_permutation _ _ _ Hl Hp).
Defined.

(* ------------------------------------------------------------------ *)
(** ** The quantile classifier commutes with reordering its input *)
Module ClassifyFacts.
Import Aggregator Classify.

Section Reorder.
Context (a : list score) (p : list nat).
Hypothesis Hp : p ≡ₚ seq 0 (length a).

Lemma p_bounded : Forall (fun i => i < length a)%nat p.
Proof.
  apply List.Forall_forall. intros i Hi.
  apply list_elem_of_In in Hi. rewrite Hp, elem_of_seq in Hi. lia.
Qed.

Lemma length_permute {A} (d : A) (l : list A) : length (permute d l p) = length a.
Proof. unfold permute. by rewrite length_map, Hp, length_seq. Qed.

Lemma permute_Permutation : permute NaN a p ≡ₚ a.
Proof. by apply PermuteFacts.map_nth_perm. Qed.

Lemma nth_zip_with {A B C} (f : A -> B -> C) (l1 : list A) (l2 : list B) d1 d2 d i :
  length l1 = length l2 -> (i < length l1)%nat ->
  nth i (zip_with f l1 l2) d = f (nth i l1 d1) (nth i l2 d2).
Proof.
  revert l2 i. induction l1 as [|x l1 IH]; intros [|y l2] i Hl Hi; simpl in *; try lia.
  destruct i; [reflexivity|]. apply IH; lia.
Qed.

Lemma zip_with_map_same {A B C} (f : A -> B -> C) (g : nat -> A) (h : nat -> B) (l : list nat) :
  zip_with f (map g l) (map h l) = map (fun i => f (g i) (h i)) l.
Proof. induction l as [|i l IH]; simpl; [reflexivity|]. by rewrite IH. Qed.

Lemma mask_set_permute (out : list cell) (mask : score -> bool) (v : Z) :
  length out = length a ->
  mask_set (permute None out p) (permute NaN a p) mask v
  = permute None (mask_set out a mask v) p.
Proof.
  intros Hl. unfold mask_set, permute. rewrite zip_with_map_same.
  apply map_ext_in. intros i Hi.
  pose proof p_bounded as Hb. rewrite List.Forall_forall in Hb. specialize (Hb i Hi).
  symmetry. rewrite (nth_zip_with _ out a None NaN None i Hl) by lia. reflexivity.
Qed.

Lemma length_mask_set (out : list cell) (mask : score -> bool) (v : Z) :
  length out = length a -> length (mask_set out a mask v) = length a.
Proof. intros Hl. unfold mask_set. rewrite length_zip_with. unfold cell in *. lia. Qed.

Lemma band_loop_permute (qs : list Qc) (ids : list nat) (out : list cell) :
  length out = length a ->
  band_loop qs (permute NaN a p) (permute None out p) ids
  = option_map (fun o => permute None o p) (band_loop qs a out ids).
Proof.
  revert out. induction ids as [|i ids IH]; intros out Hl; simpl; [reflexivity|].
  destruct (qs !! i), (qs !! S i); try reflexivity.
  rewrite mask_set_permute by exact Hl. apply IH. by apply length_mask_set.
Qed.

Lemma map_nth_repeat {A} (x d : A) (n : nat) (l : list nat) :
  Forall (fun i => i < n)%nat l -> map (fun i => nth i (repeat x n) d) l = repeat x (length l).
Proof.
  induction l as [|i l IH]; intros Hb; [reflexivity|].
  apply Forall_cons_iff in Hb as [Hi Hb]. simpl.
  rewrite nth_repeat_lt by exact Hi. by rewrite IH.
Qed.

Lemma permute_repeat {A} (x d : A) :
  permute d (repeat x (length a)) p = repeat x (length a).
Proof.
  unfold permute. rewrite map_nth_repeat by exact p_bounded.
  by rewrite Hp, length_seq.
Qed.

(** The quantiles only depend on the multiset of positive scores. *)
Lemma merge_sort_perm_eq (xs ys : list Qc) :
  xs ≡ₚ ys -> merge_sort Qcle xs = merge_sort Qcle ys.
Proof.
  intros Hxy.
  assert (Transitive Qcle) by (intros x y z; apply Qcle_trans).
  assert (AntiSymm (=) Qcle) by (intros x y; apply Qcle_antisym).
  assert (Total Qcle) by (intros x y; apply Qc_le_total).
  apply (Sorted_unique Qcle); [by apply Sorted_merge_sort | by apply Sorted_merge_sort |].
  by rewrite !merge_sort_Permutation.
Qed.

Lemma quantiles_permute (q : list Qc) :
  map (np_quantile (positives (permute NaN a p))) q = map (np_quantile (positives a)) q.
Proof.
  apply map_ext. intros x. unfold np_quantile.
  rewrite (merge_sort_perm_eq (positives (permute NaN a p)) (positives a)); [reflexivity|].
  unfold positives. by rewrite permute_Permutation.
Qed.

Lemma length_band_loop (qs : list Qc) (ids : list nat) (out out' : list cell) :
  length out = length a -> band_loop qs a out ids = Some out' -> length out' = length a.
Proof.
  revert out. induction ids as [|i ids IH]; intros out Ho Eb; simpl in Eb.
  - injection Eb as <-. exact Ho.
  - destruct (qs !! i), (qs !! S i); try discriminate.
    exact (IH _ (length_mask_set _ _ _ Ho) Eb).
Qed.

Lemma classify_with_permute (q : list Qc) (NQ : Z) :
  classify_with q (permute NaN a p) NQ
  = option_map (fun o => permute None o p) (classify_with q a NQ).
Proof.
  unfold classify_with. rewrite quantiles_permute.
  destruct (head (map (np_quantile (positives a)) q)) as [q0|],
    (last (map (np_quantile (positives a)) q)) as [q1|]; try reflexivity.
  rewrite length_permute.
  assert (H0 : length (repeat (None : cell) (length a)) = length a) by apply repeat_length.
  pose proof (length_mask_set _ eq0 0 H0) as H1.
  pose proof (length_mask_set _ (fun x => gt0 x && lt x q0) 1 H1) as H2.
  pose proof (length_mask_set _ (fun x => ge x q1) NQ H2) as H3.
  rewrite <- (permute_repeat (A:=cell) None None) at 1.
  rewrite (mask_set_permute _ _ _ H0), (mask_set_permute _ _ _ H1),
    (mask_set_permute _ _ _ H2), (band_loop_permute _ _ _ H3).
  destruct (band_loop _ a _ _) as [out|] eqn:Eb; [|reflexivity]. simpl.
  rewrite mask_set_permute; [reflexivity|].
  exact (length_band_loop _ _ _ _ H3 Eb).
Qed.

End Reorder.

Lemma quantile_classify_nonempty (a : list score) (NQ : Z) :
  a <> [] ->
  quantile_classify (Some a) NQ
  = if decide (length (filter (fun x => gt0 x = true) a) = 0%nat)
    then PyRet (repeat (Some 0%Z) (length a))
    else match arange_fracs NQ with
         | None => PyRaise "ZeroDivisionError"
         | Some q => match classify_with q a NQ with
                     | Some out => PyRet out
                     | None => PyRaise "IndexError"
                     end
         end.
Proof. destruct a; [congruence|reflexivity]. Qed.

End ClassifyFacts.

(** C8 (code defect): with a negative score the result is not
    order-independent. Classifying [[-1, 1]] leaves slot 0 unwritten, and
    classifying the reordered [[1, -1]] leaves slot 1 unwritten; each slot
    holds its own [np.empty] buffer. The reordered result of the first call
    equals the result of the second exactly when those two buffer bytes
    agree. *)
Theorem C8_reorder_unwritten_slot (buf1 buf2 : list Z) :
  length buf1 = 2%nat -> length buf2 = 2%nat ->
  Classify.pyres_map (Classify.read_out buf1)
    (Classify.quantile_classify
       (Some (Classify.permute Classify.NaN
                [Classify.Num (Aggregator.qz (-1)); Classify.Num (Aggregator.qz 1)] [1; 0]%nat)) 5)
  = Classify.pyres_map (fun out => Classify.permute 0%Z (Classify.read_out buf2 out) [1; 0]%nat)
      (Classify.quantile_classify
         (Some [Classify.Num (Aggregator.qz (-1)); Classify.Num (Aggregator.qz 1)]) 5)
  <-> nth 1 buf1 0%Z = nth 0 buf2 0%Z.
Proof.
  intros H1 H2.
  assert (E1 : Classify.quantile_classify
       (Some (Classify.permute Classify.NaN
                [Classify.Num (Aggregator.qz (-1)); Classify.Num (Aggregator.qz 1)] [1; 0]%nat)) 5
     = Aggregator.PyRet [Some 5%Z; None]) by (vm_compute; reflexivity).
  assert (E2 : Classify.quantile_classify
         (Some [Classify.Num (Aggregator.qz (-1)); Classify.Num (Aggregator.qz 1)]) 5
     = Aggregator.PyRet [None; Some 5%Z]) by (vm_compute; reflexivity).
  rewrite E1, E2.
  destruct buf1 as [|b10 [|b11 [|]]]; try discriminate.
  destruct buf2 as [|b20 [|b21 [|]]]; try discriminate.
  cbn. split; [intros H; injection H as ->; reflexivity | intros ->; reflexivity].
Qed.

(** C8 with the buffers [[0, 0]] and [[1, 1]]. *)
Lemma C8_reorder_unwritten_slot_witness :
  length [0; 0]%Z = 2%nat /\ length [1; 1]%Z = 2%nat /\
  (Classify.pyres_map (Classify.read_out [0; 0]%Z)
    (Classify.quantile_classify
       (Some (Classify.permute Classify.NaN
                [Classify.Num (Aggregator.qz (-1)); Classify.Num (Aggregator.qz 1)] [1; 0]%nat)) 5)
  = Classify.pyres_map (fun out => Classify.permute 0%Z (Classify.read_out [1; 1]%Z out) [1; 0]%nat)
      (Classify.quantile_classify
         (Some [Classify.Num (Aggregator.qz (-1)); Classify.Num (Aggregator.qz 1)]) 5)
  <-> nth 1 [0; 0]%Z 0%Z = nth 0 [1; 1]%Z 0%Z).
Proof.
  assert (H1 : length [0; 0]%Z = 2%nat) by reflexivity.
  assert (H2 : length [1; 1]%Z = 2%nat) by reflexivity.
  split; [exact H1|]. split; [exact H2|].
  exact (C8_reorder_unwritten_slot _ _ H1 H2).
Defined.

(** C8 refuted: with those buffers the reordered outputs differ. *)
Lemma C8_reorder_counterexample :
  Classify.pyres_map (Classify.read_out [0; 0]%Z)
    (Classify.quantile_classify
       (Some (Classify.permute Classify.NaN
                [Classify.Num (Aggregator.qz (-1)); Classify.Num (Aggregator.qz 1)] [1; 0]%nat)) 5)
  <> Classify.pyres_map (fun out => Classify.permute 0%Z (Classify.read_out [1; 1]%Z out) [1; 0]%nat)
      (Classify.quantile_classify
         (Some [Classify.Num (Aggregator.qz (-1)); Classify.Num (Aggregator.qz 1)]) 5).
Proof. vm_compute. congruence. Qed.

(** X17: for every score array [a], class count [NQ] and permutation [p]
    of the positions of [a], classifying the reordered array [a[p]] writes
    the reordered classes of classifying [a] (the same exception, if any):
    every written slot gets the same class after the reordering, and the
    unwritten positions are the reordered unwritten positions. What an
    unwritten slot holds is [np.empty]'s buffer, not determined by the
    scores. *)
Theorem classify_reorder_written (a : list Classify.score) (p : list nat) (NQ : Z) :
  p ≡ₚ seq 0 (length a) ->
  Classify.quantile_classify (Some (Classify.permute Classify.NaN a p)) NQ
  = Classify.pyres_map (fun out => Classify.permute None out p)
      (Classify.quantile_classify (Some a) NQ).
Proof.
  intros Hp. destruct a as [|x a'].
  - simpl in Hp. symmetry in Hp; apply Permutation_nil in Hp as ->. reflexivity.
  - set (a := x :: a') in *.
    assert (Hb : Classify.permute Classify.NaN a p <> []).
    { intros Hnil. pose proof (ClassifyFacts.length_permute a p Hp Classify.NaN a) as Hl.
      rewrite Hnil in Hl. discriminate. }
    rewrite !ClassifyFacts.quantile_classify_nonempty by (done || discriminate).
    assert (Hgate : length (filter (fun y => Classify.gt0 y = true)
                              (Classify.permute Classify.NaN a p))
                    = length (filter (fun y => Classify.gt0 y = true) a)).
    { apply Permutation_length. by rewrite ClassifyFacts.permute_Permutation. }
    rewrite Hgate.
    destruct (decide _).
    + cbn [Classify.pyres_map]. rewrite (ClassifyFacts.length_permute a p Hp).
      by rewrite (ClassifyFacts.permute_repeat a p Hp).
    + destruct (Classify.arange_fracs NQ) as [q|]; [|reflexivity].
      rewrite ClassifyFacts.classify_with_permute by exact Hp.
      by destruct (Classify.classify_with q a NQ).
Qed.

(** X17 at scores [[3, 0, 1, nan]], [NQ = 5] and the reordering [[2, 0, 3, 1]]. *)
Lemma classify_reorder_written_witness :
  [2; 0; 3; 1]%nat ≡ₚ seq 0 (length [Classify.Num (Aggregator.qz 3); Classify.Num (Aggregator.qz 0);
                                     Classify.Num (Aggregator.qz 1); Classify.NaN]) /\
  Classify.quantile_classify
    (Some (Classify.permute Classify.NaN
             [Classify.Num (Aggregator.qz 3); Classify.Num (Aggregator.qz 0);
              Classify.Num (Aggregator.qz 1); Classify.NaN] [2; 0; 3; 1]%nat)) 5
  = Classify.pyres_map (fun out => Classify.permute None out [2; 0; 3; 1]%nat)
      (Classify.quantile_classify
         (Some [Classify.Num (Aggregator.qz 3); Classify.Num (Aggregator.qz 0);
                Classify.Num (Aggregator.qz 1); Classify.NaN]) 5).
Proof.
  assert (Hp : [2; 0; 3; 1]%nat ≡ₚ seq 0 (length [Classify.Num (Aggregator.qz 3);
                 Classify.Num (Aggregator.qz 0); Classify.Num (Aggregator.qz 1); Classify.NaN]))
    by (apply (bool_decide_unpack _); vm_compute; reflexivity).
  split; [exact Hp|].
  exact (classify_reorder_written _ _ 5 Hp).
Defined.

(* ------------------------------------------------------------------ *)
(** ** The cache writer on non-empty columns *)
Module CacheFacts.
Import Cache.

Lemma convert_ok (objs : list (string * list pyval)) :
  Forall (fun kc => snd kc <> []) objs ->
  forall s, convert objs s = (s, inr (converted objs)).
Proof.
  induction objs as [|[k col] objs IH]; intros Hne s; [reflexivity|].
  apply Forall_cons_iff in Hne as [Hcol Hne].
  destruct col as [|v col']; [done|].
  simpl. unfold io_bind. by rewrite (IH Hne s).
Qed.

Lemma converted_no_file (objs : list (string * list pyval)) :
  Forall (fun kc => kc.1 <> "file"%string) objs ->
  existsb (fun ka => bool_decide (ka.1 = "file"%string)) (converted objs) = false.
Proof.
  induction 1 as [|[k col] objs Hk _ IH]; [reflexivity|].
  simpl. rewrite IH, orb_false_r. by apply bool_decide_eq_false_2.
Qed.

Lemma prefixes_length (d q : path) : q ∈ prefixes d -> (length q <= length d)%nat.
Proof.
  unfold prefixes. intros Hq. apply list_elem_of_In, in_map_iff in Hq as (n & <- & _).
  rewrite length_take. lia.
Qed.

Lemma self_prefix (d : path) : d <> [] -> d ∈ prefixes d.
Proof.
  intros Hd. unfold prefixes. apply list_elem_of_In, in_map_iff.
  exists (length d). split; [by rewrite take_ge|].
  apply in_seq. destruct d; [done|]. simpl. lia.
Qed.

Lemma file_not_prefix (d : path) (f : string) : d ++ [f] ∉ prefixes d.
Proof.
  intros Hin. apply prefixes_length in Hin. rewrite length_app in Hin. simpl in Hin. lia.
Qed.

Lemma existsb_no_file (s : fs) (l : list path) :
  (forall q, q ∈ l -> q ∉ dom (fs_files s)) ->
  existsb (fun q => bool_decide (q ∈ dom (fs_files s))) l = false.
Proof.
  intros Hl. destruct (existsb _ l) eqn:E; [|reflexivity].
  apply existsb_exists in E as (q & Hq & Hb). apply bool_decide_eq_true in Hb.
  exfalso. apply (Hl q); [by apply list_elem_of_In|exact Hb].
Qed.

(** With non-empty columns, a directory path free of files and a file path
    that is not a directory, the store succeeds: it keeps every directory,
    makes [base_path/mode/profile] one, and sets the file
    [base_path/mode/profile/bulk_id.npz] to the arrays whatever was stored
    there, leaving every other file as it was. *)
Lemma save_traveltime_matrix_overwrites (base_path : path) (bulk_id : Z)
    (objs : list (string * list pyval)) (mode profile : string) :
  Forall (fun kc => snd kc <> [] /\ kc.1 <> "file"%string) objs ->
  let arrays := converted objs in
  forall s,
    (forall q, q ∈ prefixes (base_path ++ [mode; profile]) -> q ∉ dom (fs_files s)) ->
    ((base_path ++ [mode; profile]) ++ [(pretty bulk_id ++ ".npz")%string]) ∉ fs_dirs s ->
    exists dirs', (fs_dirs s ⊆ dirs') /\
      (((base_path ++ [mode; profile]) ++ [(pretty bulk_id ++ ".npz")%string]) ∉ dirs') /\
      ((base_path ++ [mode; profile]) ∈ dirs') /\
      save_traveltime_matrix base_path bulk_id objs mode profile s
      = (mkfs dirs' (<[(base_path ++ [mode; profile]) ++ [(pretty bulk_id ++ ".npz")%string]
                       := arrays]> (fs_files s)), inr tt).
Proof.
  intros Hok arrays s Hpre Hnd.
  assert (Hc : forall s, convert objs s = (s, inr arrays)).
  { apply convert_ok. eapply Forall_impl; [exact Hok|]. intros kc [H _]. exact H. }
  assert (Hf : existsb (fun ka => bool_decide (ka.1 = "file"%string)) arrays = false).
  { apply converted_no_file. eapply Forall_impl; [exact Hok|]. intros kc [_ H]. exact H. }
  set (d := base_path ++ [mode; profile]) in *.
  set (f := (pretty bulk_id ++ ".npz")%string) in *.
  assert (Hd : d <> []) by (unfold d; by destruct base_path).
  assert (Hdd : d ∈ prefixes d) by (by apply self_prefix).
  assert (Hrl : removelast (d ++ [f]) = d) by apply removelast_last.
  assert (Hdf : d ∉ dom (fs_files s)) by (by apply Hpre).
  unfold save_traveltime_matrix. fold d f. unfold io_bind at 1. rewrite Hc.
  unfold io_bind, path_exists.
  rewrite (bool_decide_eq_false_2 (d ∈ dom (fs_files s))) by exact Hdf.
  rewrite orb_false_r.
  destruct (bool_decide (d ∈ fs_dirs s)) eqn:Edir.
  - apply bool_decide_eq_true in Edir.
    exists (fs_dirs s). split; [done|]. split; [done|]. split; [done|].
    unfold io_ret, delete_file, savez_compressed.
    rewrite !(bool_decide_eq_true_2 (d ∈ fs_dirs s)) by exact Edir. simpl. rewrite Hrl, Hf.
    rewrite !(bool_decide_eq_true_2 (d ∈ fs_dirs s)) by exact Edir.
    rewrite !(bool_decide_eq_false_2 (d ++ [f] ∈ fs_dirs s)) by exact Hnd. simpl.
    by rewrite insert_delete_eq.
  - apply bool_decide_eq_false in Edir.
    rewrite !(bool_decide_eq_false_2 (d ∈ fs_dirs s)) by exact Edir.
    unfold makedirs. rewrite (bool_decide_eq_false_2 (d ∈ dom (fs_files s))) by exact Hdf.
    rewrite existsb_no_file by exact Hpre.
    set (dirs' := fs_dirs s ∪ list_to_set (prefixes d)).
    assert (Hd' : d ∈ dirs') by (apply elem_of_union_r, elem_of_list_to_set, Hdd).
    assert (Hnd' : (d ++ [f]) ∉ dirs').
    { unfold dirs'. rewrite elem_of_union, elem_of_list_to_set.
      intros [H|H]; [exact (Hnd H)|exact (file_not_prefix d f H)]. }
    exists dirs'. split; [set_solver|]. split; [exact Hnd'|]. split; [exact Hd'|].
    unfold delete_file, savez_compressed. simpl.
    rewrite Hrl, Hf. case_bool_decide; [|contradiction]. case_bool_decide; [contradiction|]. simpl.
    by rewrite insert_delete_eq.
Qed.


End CacheFacts.


(** The arrays of that witness: an int64 array for the int column, an
    object array for the column starting with a string; a column starting
    with an int and holding a string becomes a string array. *)
Lemma save_traveltime_matrix_arrays :
  map (fun kc => (kc.1, Cache.array_of kc.2))
    [("grid_ids"%string, [Cache.PInt 1; Cache.PInt 2]);
     ("names"%string, [Cache.PStr "a"; Cache.PInt 3])]
  = [("grid_ids"%string, Cache.IntArray [1; 2]%Z);
     ("names"%string, Cache.ObjArray [Cache.PStr "a"; Cache.PInt 3])] /\
  Cache.array_of [Cache.PInt (-1); Cache.PStr "a"] = Cache.StrArray ["-1"; "a"]%string.
Proof. split; vm_compute; reflexivity. Qed.

(* ------------------------------------------------------------------ *)
(** ** The per-group kernels on the output of [sort_and_unique_by_grid_ids] *)
Module AggregatorOutput.
Import Aggregator.
Local Open Scope Qc_scope.

(** The grouping [sort_and_unique_by_grid_ids] hands to the kernels: one
    offset per unique id, strictly increasing up to the number of rows,
    starting at 0. *)
Lemma sorted_groups (grid_ids : list Z) (travel_times : list Qc) (tab : list row)
    (perm : list nat) :
  table grid_ids travel_times = Some tab ->
  is_argsort (map fst tab) perm ->
  travel_times <> [] ->
  let '(sorted_table, (unique_grid_ids, offsets)) := sort_and_unique_with perm tab in
  length unique_grid_ids = length offsets /\
  StronglySorted lt (offsets ++ [length sorted_table]) /\
  head offsets = Some 0%nat /\
  length sorted_table = length travel_times.
Proof.
  intros Htab [Hperm Hsorted] Htt.
  unfold table in Htab.
  case_decide as Hlen; [|discriminate]. injection Htab as <-.
  unfold sort_and_unique_with, np_unique_index.
  set (st := take_rows _ perm).
  set (ar := map fst st).
  assert (Hlst : length st = length travel_times).
  { unfold st, take_rows. rewrite length_map, Hperm, length_seq, length_map,
      length_zip, length_map. lia. }
  assert (Har : Sorted Z.le ar).
  { unfold ar, st. by rewrite AggregatorFacts.keys_take_rows. }
  assert (Transitive Z.le) by (intros x y z; lia).
  assert (HarS : StronglySorted Z.le ar) by (by apply Sorted_StronglySorted).
  rewrite (AggregatorFacts.merge_sort_sorted ar Har).
  destruct (AggregatorFacts.uniq_sorted_spec ar HarS) as (Hus & Hmem & Hhd).
  set (us := uniq_sorted ar) in *.
  set (offs := map (fun u => first_index u ar) us).
  assert (Hlar : length ar = length st) by (unfold ar; by rewrite length_map).
  assert (Hoffs : StronglySorted lt (offs ++ [length st])).
  { apply AggregatorFacts.StronglySorted_snoc_lt.
    - apply (AggregatorFacts.StronglySorted_map_mono _ (fun u => u ∈ ar));
        [|by apply List.Forall_forall; intros u Hu; apply Hmem, list_elem_of_In|exact Hus].
      intros u v Hu Hv Huv. by apply AggregatorFacts.first_index_mono.
    - apply List.Forall_map, List.Forall_forall. intros u Hu.
      rewrite <- Hlar. apply AggregatorFacts.first_index_lt_length, Hmem, list_elem_of_In, Hu. }
  assert (Eoffs : offs = map (fun u => first_index u ar) us) by reflexivity.
  clearbody offs us ar st.
  split; [subst offs; by rewrite length_map|].
  split; [exact Hoffs|].
  split; [|exact Hlst].
  subst offs. destruct ar as [|y ar'].
  - destruct travel_times; [done|]. simpl in Hlar, Hlst. lia.
  - destruct us as [|u0 us']; [discriminate|]. simpl in Hhd |- *.
    injection Hhd as ->. by rewrite Z.eqb_refl.
Qed.

Lemma length_bounded_slices {A} (l : list A) (lo : nat) (his : list nat) :
  length (bounded_slices l lo his) = length his.
Proof. revert lo. induction his; intros lo; simpl; auto. Qed.

Lemma length_segments {A} (l : list A) (offs : list nat) :
  length (segments l offs) = length offs.
Proof.
  unfold segments. destruct offs as [|o os]; simpl; [reflexivity|].
  rewrite length_bounded_slices, length_app. simpl. lia.
Qed.

Lemma StronglySorted_snoc_bound (xs : list nat) (n : nat) :
  StronglySorted lt (xs ++ [n]) -> Forall (fun x => x <= n)%nat (xs ++ [n]).
Proof.
  induction xs as [|x xs IH]; simpl; intros Hs; [repeat constructor|].
  apply StronglySorted_inv in Hs as [Hs Hall]. constructor; [|by apply IH].
  rewrite List.Forall_forall in Hall.
  assert (Hn : In n (xs ++ [n])) by (apply in_or_app; right; left; reflexivity).
  specialize (Hall n Hn). lia.
Qed.

Lemma bounded_slices_nonempty {A} (l : list A) (lo : nat) (his : list nat) :
  StronglySorted lt (lo :: his) -> Forall (fun h => h <= length l)%nat his ->
  Forall (fun s => s <> []) (bounded_slices l lo his).
Proof.
  revert lo. induction his as [|h his IH]; intros lo Hs Hb; simpl; [constructor|].
  apply StronglySorted_inv in Hs as [Hs Hall]. apply Forall_cons_iff in Hall as [Hlh _].
  apply Forall_cons_iff in Hb as [Hh Hb].
  constructor; [|by apply IH].
  intros Hnil. apply (f_equal length) in Hnil. unfold slice in Hnil.
  rewrite length_take, length_drop in Hnil. simpl in Hnil. lia.
Qed.

(** Each group is a non-empty slice, and the groups in order make up the
    whole array. *)
Lemma segments_groups {A} (l : list A) (offs : list nat) :
  StronglySorted lt (offs ++ [length l]) -> head offs = Some 0%nat ->
  Forall (fun s => s <> []) (segments l offs) /\ concat (segments l offs) = l.
Proof.
  intros Hs Hhd. destruct offs as [|o os]; [discriminate|]. simpl in Hhd.
  injection Hhd as ->. unfold segments. simpl. split.
  - apply bounded_slices_nonempty; [exact Hs|].
    apply StronglySorted_snoc_bound in Hs. by apply Forall_cons_iff in Hs as [_ Hs].
  - rewrite AggregatorFacts.concat_bounded_slices by exact Hs.
    unfold slice. by rewrite drop_0, Nat.sub_0_r, take_ge.
Qed.

(** The groups of the sorted travel times of a non-empty input. *)
Lemma sorted_segments (grid_ids : list Z) (travel_times : list Qc) (tab : list row)
    (perm : list nat) :
  table grid_ids travel_times = Some tab ->
  is_argsort (map fst tab) perm ->
  travel_times <> [] ->
  let '(sorted_table, unique) := sort_and_unique_with perm tab in
  map snd sorted_table <> [] /\
  length (segments (map snd sorted_table) unique.2) = length unique.1 /\
  Forall (fun s => s <> []) (segments (map snd sorted_table) unique.2) /\
  concat (segments (map snd sorted_table) unique.2) = map snd sorted_table /\
  length sorted_table = length travel_times.
Proof.
  intros Htab Hp Htt.
  pose proof (sorted_groups grid_ids travel_times tab perm Htab Hp Htt) as Hg.
  destruct (sort_and_unique_with perm tab) as [st [u offs]]. simpl.
  destruct Hg as (Hlu & Hs & Hhd & Hlst).
  replace (length st) with (length (map snd st)) in Hs by apply length_map.
  destruct (segments_groups _ _ Hs Hhd) as [Hne Hcat].
  split; [|split; [by rewrite length_segments|split; [exact Hne|split; [exact Hcat|exact Hlst]]]].
  assert (Hl : length (map snd st) = length travel_times) by (rewrite length_map; exact Hlst).
  intros Hnil. rewrite Hnil in Hl. destruct travel_times; [done|discriminate].
Qed.

Lemma pyres_ret_nonempty {A B} (l : list A) (x : B) (y : B) :
  l <> [] -> match l with [] => y | _ => x end = x.
Proof. destruct l; [done|reflexivity]. Qed.

(** [np.min] of a non-empty slice is one of its values and at most each. *)
Lemma np_min_spec (xs : list Qc) :
  xs <> [] -> exists m, np_min xs = Some m /\ m ∈ xs /\ Forall (fun x => m <= x) xs.
Proof.
  destruct xs as [|x xs]; [done|]. intros _. simpl. eexists. split; [reflexivity|].
  revert x. induction xs as [|y xs IH]; intros x; simpl.
  - split; [by left|]. constructor; [apply Qcle_refl|constructor].
  - destruct (IH (if decide (y < x) then y else x)) as [Hin Hall].
    set (m := foldl _ _ xs) in *.
    apply Forall_cons_iff in Hall as [Hmx Hall].
    split.
    + case_decide; apply elem_of_cons in Hin as [->|Hin];
        [right; left|right; right; exact Hin|left|right; right; exact Hin].
    + case_decide as Hyx.
      * constructor; [apply (Qcle_trans _ y); [exact Hmx|by apply Qclt_le_weak]|].
        constructor; [exact Hmx|exact Hall].
      * constructor; [exact Hmx|]. constructor; [|exact Hall].
        apply (Qcle_trans _ x); [exact Hmx|by apply Qcnot_lt_le].
Qed.

Lemma Qc_of_Z_succ (n : nat) : Qc_of_Z (Z.of_nat (S n)) = Qc_of_Z (Z.of_nat n) + 1.
Proof.
  by rewrite Nat2Z.inj_succ, <- Z.add_1_r, Z2Qc_inj_add, Z2Qc_inj_1.
Qed.

Lemma foldl_Qcplus (a : Qc) (xs : list Qc) : foldl Qcplus a xs = a + foldl Qcplus 0 xs.
Proof.
  revert a. induction xs as [|x xs IH]; intros a; simpl; [by rewrite Qcplus_0_r|].
  rewrite (IH (a + x)), (IH (0 + x)), Qcplus_0_l. symmetry. apply Qcplus_assoc.
Qed.

Lemma sum_bounds (lo hi : Qc) (xs : list Qc) :
  Forall (fun x => lo <= x <= hi) xs ->
  lo * Qc_of_Z (Z.of_nat (length xs)) <= foldl Qcplus 0 xs /\
  foldl Qcplus 0 xs <= hi * Qc_of_Z (Z.of_nat (length xs)).
Proof.
  induction xs as [|x xs IH]; intros Hb; simpl.
  - change (Z.of_nat 0) with 0%Z. rewrite Z2Qc_inj_0, !Qcmult_0_r. split; apply Qcle_refl.
  - apply Forall_cons_iff in Hb as [[Hlx Hxh] Hb]. destruct (IH Hb) as [Hl Hh].
    rewrite foldl_Qcplus, Qcplus_0_l, Qc_of_Z_succ, !Qcmult_plus_distr_r, !Qcmult_1_r.
    split; rewrite Qcplus_comm; by apply Qcplus_le_compat.
Qed.

Lemma div_bounds (lo hi s n : Qc) :
  0 < n -> lo * n <= s -> s <= hi * n -> lo <= s / n /\ s / n <= hi.
Proof.
  intros Hn Hl Hh.
  assert (Hn0 : n <> 0) by (intros ->; discriminate Hn).
  assert (Hsn : s / n * n = s).
  { unfold Qcdiv. rewrite <- Qcmult_assoc, Qcmult_inv_l by exact Hn0. apply Qcmult_1_r. }
  split; apply (Qcmult_lt_0_le_reg_r _ _ n Hn); by rewrite Hsn.
Qed.

Lemma Qc_of_Z_pos (n : nat) : (0 < n)%nat -> 0 < Qc_of_Z (Z.of_nat n).
Proof.
  intros Hn. rewrite <- Z2Qc_inj_0. apply (proj1 (Z2Qc_inj_lt 0 (Z.of_nat n))). lia.
Qed.

(** [np.average] of a non-empty slice lies between any lower and upper bound
    of its values. *)
Lemma np_average_bounds (xs : list Qc) :
  xs <> [] -> exists v, np_average xs = Some v /\
  forall lo hi, Forall (fun x => lo <= x <= hi) xs -> lo <= v <= hi.
Proof.
  intros Hne. unfold np_average. rewrite (pyres_ret_nonempty xs _ None Hne).
  eexists. split; [reflexivity|]. intros lo hi Hb.
  destruct (sum_bounds lo hi xs Hb) as [Hl Hh].
  apply div_bounds; [|exact Hl|exact Hh].
  apply Qc_of_Z_pos. destruct xs; [done|]. simpl. lia.
Qed.

Lemma merge_sort_bounds (lo hi : Qc) (xs : list Qc) :
  Forall (fun x => lo <= x <= hi) xs -> Forall (fun x => lo <= x <= hi) (merge_sort Qcle xs).
Proof. intros Hb. by rewrite (merge_sort_Permutation Qcle xs). Qed.

(** [np.median] of a non-empty slice is a number (no [nan]) between any lower
    and upper bound of its values. *)
Lemma np_median_bounds (xs : list Qc) :
  xs <> [] -> exists v, np_median xs = Some v /\
  forall lo hi, Forall (fun x => lo <= x <= hi) xs -> lo <= v <= hi.
Proof.
  intros Hne. unfold np_median.
  set (s := merge_sort Qcle xs).
  assert (Hls : length s = length xs) by (unfold s; by rewrite (merge_sort_Permutation Qcle xs)).
  assert (Hnth : forall k lo hi, (k < length s)%nat -> Forall (fun x => lo <= x <= hi) xs ->
                   lo <= nth k s 0 <= hi).
  { intros k lo hi Hk Hb. apply merge_sort_bounds in Hb. fold s in Hb.
    rewrite List.Forall_forall in Hb. apply Hb, nth_In, Hk. }
  clearbody s. destruct (length s) as [|n] eqn:En.
  { destruct xs; [done|discriminate]. }
  destruct (Nat.even (S n)) eqn:Ev; eexists; (split; [reflexivity|]); intros lo hi Hb.
  - apply Nat.even_spec in Ev as [k Hk].
    assert (Hk1 : (Nat.div (S n) 2 = k)%nat) by (rewrite Hk, Nat.mul_comm, Nat.div_mul; lia).
    rewrite Hk1.
    destruct (Hnth (k - 1)%nat lo hi ltac:(lia) Hb) as [Hl1 Hh1].
    destruct (Hnth k lo hi ltac:(lia) Hb) as [Hl2 Hh2].
    assert (H2 : Q2Qc 2 = 1 + 1) by (apply Qc_is_canon; reflexivity).
    apply div_bounds; [by rewrite H2|..];
      rewrite H2, Qcmult_plus_distr_r, Qcmult_1_r; by apply Qcplus_le_compat.
  - apply Hnth; [|exact Hb]. apply Nat.div_lt; lia.
Qed.

Lemma sum_list_lengths {A} (ls : list (list A)) : sum_list (map length ls) = length (concat ls).
Proof. induction ls as [|l ls IH]; simpl; [reflexivity|]. by rewrite IH, length_app. Qed.

Lemma Forall2_map_self {A B} (f : A -> B) (P : B -> A -> Prop) (l : list A) :
  Forall (fun x => P (f x) x) l -> Forall2 P (map f l) l.
Proof. induction l as [|x l IH]; intros Hl; simpl; [constructor|]. inversion Hl; subst. constructor; auto. Qed.

Lemma mapM_np_min (segs : list (list Qc)) :
  Forall (fun s => s <> []) segs ->
  exists ms, mapM np_min segs = Some ms /\
  Forall2 (fun m seg => m ∈ seg /\ Forall (fun x => m <= x) seg) ms segs.
Proof.
  induction segs as [|seg segs IH]; intros Hne; simpl.
  - exists []. split; [reflexivity|constructor].
  - apply Forall_cons_iff in Hne as [Hs Hne].
    destruct (np_min_spec seg Hs) as (m & Hm & Hin & Hle).
    destruct (IH Hne) as (ms & Hms & Hall).
    rewrite Hm, Hms. exists (m :: ms). split; [reflexivity|]. by constructor.
Qed.

End AggregatorOutput.

(** X2: on the output of [sort_and_unique_by_grid_ids] for non-empty
    travel times, [counts] returns one count per unique grid id; every count
    is at least 1 and the counts add up to the number of travel times. *)
Theorem counts_of_sorted_groups (grid_ids : list Z) (travel_times : list Qc)
    (tab : list Aggregator.row) (perm : list nat) :
  Aggregator.table grid_ids travel_times = Some tab ->
  Aggregator.is_argsort (map fst tab) perm ->
  travel_times <> [] ->
  let '(sorted_table, unique) := Aggregator.sort_and_unique_with perm tab in
  exists cs, Aggregator.counts (map snd sorted_table) unique = Aggregator.PyRet cs /\
    length cs = length unique.1 /\ Forall (fun c => 1 <= c)%nat cs /\
    sum_list cs = length travel_times.
Proof.
  intros Htab Hp Htt.
  pose proof (AggregatorOutput.sorted_segments _ _ _ _ Htab Hp Htt) as Hg.
  destruct (Aggregator.sort_and_unique_with perm tab) as [st u].
  destruct Hg as (Hne & Hlen & Hall & Hcat & Hlst).
  unfold Aggregator.counts. rewrite (AggregatorOutput.pyres_ret_nonempty _ _ _ Hne).
  eexists. split; [reflexivity|]. split; [by rewrite length_map|]. split.
  - apply List.Forall_map. eapply List.Forall_impl; [|exact Hall].
    intros seg Hs. destruct seg; [done|]. simpl. lia.
  - rewrite AggregatorOutput.sum_list_lengths, Hcat, length_map. exact Hlst.
Qed.

(** X2 at grid ids [[2, 1, 2]] with the argsort [[1, 0, 2]]. *)
Lemma counts_of_sorted_groups_witness :
  Aggregator.table [2; 1; 2] (map Aggregator.qz [5; 6; 7]) = Some (zip [2; 1; 2] (map Aggregator.qz [5; 6; 7])) /\
  Aggregator.is_argsort (map fst (zip [2; 1; 2] (map Aggregator.qz [5; 6; 7]))) [1; 0; 2]%nat /\
  map Aggregator.qz [5; 6; 7] <> [] /\
  let '(sorted_table, unique) := Aggregator.sort_and_unique_with [1; 0; 2]%nat (zip [2; 1; 2] (map Aggregator.qz [5; 6; 7])) in
  exists cs, Aggregator.counts (map snd sorted_table) unique = Aggregator.PyRet cs /\
    length cs = length unique.1 /\ Forall (fun c => 1 <= c)%nat cs /\
    sum_list cs = length (map Aggregator.qz [5; 6; 7]).
Proof.
  assert (Ht : Aggregator.table [2; 1; 2] (map Aggregator.qz [5; 6; 7]) = Some (zip [2; 1; 2] (map Aggregator.qz [5; 6; 7])))
    by reflexivity.
  assert (Hp : Aggregator.is_argsort (map fst (zip [2; 1; 2] (map Aggregator.qz [5; 6; 7]))) [1; 0; 2]%nat).
  { split; apply (bool_decide_unpack _); vm_compute; reflexivity. }
  assert (Hne : map Aggregator.qz [5; 6; 7] <> []) by discriminate.
  split; [exact Ht|]. split; [exact Hp|]. split; [exact Hne|].
  exact (counts_of_sorted_groups _ _ _ _ Ht Hp Hne).
Defined.


(** X3: on the output of [sort_and_unique_by_grid_ids] for non-empty
    travel times, [mins] never raises: it returns one value per unique grid
    id, the smallest travel time of that grid id's group. *)
Theorem mins_of_sorted_groups (grid_ids : list Z) (travel_times : list Qc)
    (tab : list Aggregator.row) (perm : list nat) :
  Aggregator.table grid_ids travel_times = Some tab ->
  Aggregator.is_argsort (map fst tab) perm ->
  travel_times <> [] ->
  let '(sorted_table, unique) := Aggregator.sort_and_unique_with perm tab in
  exists ms, Aggregator.mins (map snd sorted_table) unique = Aggregator.PyRet ms /\
    length ms = length unique.1 /\
    Forall2 (fun m seg => m ∈ seg /\ Forall (fun x => (m <= x)%Qc) seg)
      ms (Aggregator.segments (map snd sorted_table) unique.2).
Proof.
  intros Htab Hp Htt.
  pose proof (AggregatorOutput.sorted_segments _ _ _ _ Htab Hp Htt) as Hg.
  destruct (Aggregator.sort_and_unique_with perm tab) as [st u].
  destruct Hg as (Hne & Hlen & Hall & Hcat & Hlst).
  destruct (AggregatorOutput.mapM_np_min _ Hall) as (ms & Hms & Hf).
  unfold Aggregator.mins. rewrite (AggregatorOutput.pyres_ret_nonempty _ _ _ Hne), Hms.
  exists ms. split; [reflexivity|]. split; [|exact Hf].
  rewrite <- Hlen. by apply Forall2_length in Hf.
Qed.

(** X3 at grid ids [[2, 1, 2]] with the argsort [[1, 0, 2]]. *)
Lemma mins_of_sorted_groups_witness :
  Aggregator.table [2; 1; 2] (map Aggregator.qz [5; 6; 7]) = Some (zip [2; 1; 2] (map Aggregator.qz [5; 6; 7])) /\
  Aggregator.is_argsort (map fst (zip [2; 1; 2] (map Aggregator.qz [5; 6; 7]))) [1; 0; 2]%nat /\
  map Aggregator.qz [5; 6; 7] <> [] /\
  let '(sorted_table, unique) := Aggregator.sort_and_unique_with [1; 0; 2]%nat (zip [2; 1; 2] (map Aggregator.qz [5; 6; 7])) in
  exists ms, Aggregator.mins (map snd sorted_table) unique = Aggregator.PyRet ms /\
    length ms = length unique.1 /\
    Forall2 (fun m seg => m ∈ seg /\ Forall (fun x => (m <= x)%Qc) seg)
      ms (Aggregator.segments (map snd sorted_table) unique.2).
Proof.
  assert (Ht : Aggregator.table [2; 1; 2] (map Aggregator.qz [5; 6; 7]) = Some (zip [2; 1; 2] (map Aggregator.qz [5; 6; 7])))
    by reflexivity.
  assert (Hp : Aggregator.is_argsort (map fst (zip [2; 1; 2] (map Aggregator.qz [5; 6; 7]))) [1; 0; 2]%nat).
  { split; apply (bool_decide_unpack _); vm_compute; reflexivity. }
  assert (Hne : map Aggregator.qz [5; 6; 7] <> []) by discriminate.
  split; [exact Ht|]. split; [exact Hp|]. split; [exact Hne|].
  exact (mins_of_sorted_groups _ _ _ _ Ht Hp Hne).
Defined.


(** X4: on the output of [sort_and_unique_by_grid_ids] for non-empty
    travel times, [medians] returns one median per unique grid id, never
    [nan], and each lies between any lower and upper bound of the travel
    times of its group. *)
Theorem medians_of_sorted_groups (grid_ids : list Z) (travel_times : list Qc)
    (tab : list Aggregator.row) (perm : list nat) :
  Aggregator.table grid_ids travel_times = Some tab ->
  Aggregator.is_argsort (map fst tab) perm ->
  travel_times <> [] ->
  let '(sorted_table, unique) := Aggregator.sort_and_unique_with perm tab in
  exists meds, Aggregator.medians (map snd sorted_table) unique = Aggregator.PyRet meds /\
    length meds = length unique.1 /\
    Forall2 (fun md seg => exists v, md = Some v /\
               forall lo hi, Forall (fun x => (lo <= x <= hi)%Qc) seg -> (lo <= v <= hi)%Qc)
      meds (Aggregator.segments (map snd sorted_table) unique.2).
Proof.
  intros Htab Hp Htt.
  pose proof (AggregatorOutput.sorted_segments _ _ _ _ Htab Hp Htt) as Hg.
  destruct (Aggregator.sort_and_unique_with perm tab) as [st u].
  destruct Hg as (Hne & Hlen & Hall & Hcat & Hlst).
  unfold Aggregator.medians. rewrite (AggregatorOutput.pyres_ret_nonempty _ _ _ Hne).
  eexists. split; [reflexivity|]. split; [by rewrite length_map|].
  apply AggregatorOutput.Forall2_map_self. eapply List.Forall_impl; [|exact Hall].
  intros seg Hs. apply AggregatorOutput.np_median_bounds, Hs.
Qed.

(** X4 at grid ids [[2, 1, 2]] with the argsort [[1, 0, 2]]. *)
Lemma medians_of_sorted_groups_witness :
  Aggregator.table [2; 1; 2] (map Aggregator.qz [5; 6; 7]) = Some (zip [2; 1; 2] (map Aggregator.qz [5; 6; 7])) /\
  Aggregator.is_argsort (map fst (zip [2; 1; 2] (map Aggregator.qz [5; 6; 7]))) [1; 0; 2]%nat /\
  map Aggregator.qz [5; 6; 7] <> [] /\
  let '(sorted_table, unique) := Aggregator.sort_and_unique_with [1; 0; 2]%nat (zip [2; 1; 2] (map Aggregator.qz [5; 6; 7])) in
  exists meds, Aggregator.medians (map snd sorted_table) unique = Aggregator.PyRet meds /\
    length meds = length unique.1 /\
    Forall2 (fun md seg => exists v, md = Some v /\
               forall lo hi, Forall (fun x => (lo <= x <= hi)%Qc) seg -> (lo <= v <= hi)%Qc)
      meds (Aggregator.segments (map snd sorted_table) unique.2).
Proof.
  assert (Ht : Aggregator.table [2; 1; 2] (map Aggregator.qz [5; 6; 7]) = Some (zip [2; 1; 2] (map Aggregator.qz [5; 6; 7])))
    by reflexivity.
  assert (Hp : Aggregator.is_argsort (map fst (zip [2; 1; 2] (map Aggregator.qz [5; 6; 7]))) [1; 0; 2]%nat).
  { split; apply (bool_decide_unpack _); vm_compute; reflexivity. }
  assert (Hne : map Aggregator.qz [5; 6; 7] <> []) by discriminate.
  split; [exact Ht|]. split; [exact Hp|]. split; [exact Hne|].
  exact (medians_of_sorted_groups _ _ _ _ Ht Hp Hne).
Defined.


(** X5: on the output of [sort_and_unique_by_grid_ids] for non-empty
    travel times, [averages] returns one mean per unique grid id, and each
    lies between any lower and upper bound of the travel times of its
    group. *)
Theorem averages_of_sorted_groups (grid_ids : list Z) (travel_times : list Qc)
    (tab : list Aggregator.row) (perm : list nat) :
  Aggregator.table grid_ids travel_times = Some tab ->
  Aggregator.is_argsort (map fst tab) perm ->
  travel_times <> [] ->
  let '(sorted_table, unique) := Aggregator.sort_and_unique_with perm tab in
  exists avgs, Aggregator.averages (map snd sorted_table) unique = Aggregator.PyRet avgs /\
    length avgs = length unique.1 /\
    Forall2 (fun av seg => exists v, av = Some v /\
               forall lo hi, Forall (fun x => (lo <= x <= hi)%Qc) seg -> (lo <= v <= hi)%Qc)
      avgs (Aggregator.segments (map snd sorted_table) unique.2).
Proof.
  intros Htab Hp Htt.
  pose proof (AggregatorOutput.sorted_segments _ _ _ _ Htab Hp Htt) as Hg.
  destruct (Aggregator.sort_and_unique_with perm tab) as [st u].
  destruct Hg as (Hne & Hlen & Hall & Hcat & Hlst).
  unfold Aggregator.averages. rewrite (AggregatorOutput.pyres_ret_nonempty _ _ _ Hne).
  eexists. split; [reflexivity|]. split; [by rewrite length_map|].
  apply AggregatorOutput.Forall2_map_self. eapply List.Forall_impl; [|exact Hall].
  intros seg Hs. apply AggregatorOutput.np_average_bounds, Hs.
Qed.

(** X5 at grid ids [[2, 1, 2]] with the argsort [[1, 0, 2]]. *)
Lemma averages_of_sorted_groups_witness :
  Aggregator.table [2; 1; 2] (map Aggregator.qz [5; 6; 7]) = Some (zip [2; 1; 2] (map Aggregator.qz [5; 6; 7])) /\
  Aggregator.is_argsort (map fst (zip [2; 1; 2] (map Aggregator.qz [5; 6; 7]))) [1; 0; 2]%nat /\
  map Aggregator.qz [5; 6; 7] <> [] /\
  let '(sorted_table, unique) := Aggregator.sort_and_unique_with [1; 0; 2]%nat (zip [2; 1; 2] (map Aggregator.qz [5; 6; 7])) in
  exists avgs, Aggregator.averages (map snd sorted_table) unique = Aggregator.PyRet avgs /\
    length avgs = length unique.1 /\
    Forall2 (fun av seg => exists v, av = Some v /\
               forall lo hi, Forall (fun x => (lo <= x <= hi)%Qc) seg -> (lo <= v <= hi)%Qc)
      avgs (Aggregator.segments (map snd sorted_table) unique.2).
Proof.
  assert (Ht : Aggregator.table [2; 1; 2] (map Aggregator.qz [5; 6; 7]) = Some (zip [2; 1; 2] (map Aggregator.qz [5; 6; 7])))
    by reflexivity.
  assert (Hp : Aggregator.is_argsort (map fst (zip [2; 1; 2] (map Aggregator.qz [5; 6; 7]))) [1; 0; 2]%nat).
  { split; apply (bool_decide_unpack _); vm_compute; reflexivity. }
  assert (Hne : map Aggregator.qz [5; 6; 7] <> []) by discriminate.
  split; [exact Ht|]. split; [exact Hp|]. split; [exact Hne|].
  exact (averages_of_sorted_groups _ _ _ _ Ht Hp Hne).
Defined.


(* ------------------------------------------------------------------ *)
(** ** Bounds and monotonicity of the gaussian kernels *)
Module DecayOutput.
Local Open Scope R_scope.

Import Decay.

Lemma guarded_cons (cutoff : R) (g : R -> R) (t : R) (seg : list R) :
  guarded cutoff g (t :: seg) = (if Rle_dec t cutoff then g t else 0) + guarded cutoff g seg.
Proof. reflexivity. Qed.

Lemma guarded_bounds (cutoff : R) (g : R -> R) (seg : list R) :
  (forall t, 0 < g t <= 1) ->
  0 <= guarded cutoff g seg <= INR (within cutoff seg) /\
  (guarded cutoff g seg = 0 <-> Forall (fun t => cutoff < t) seg).
Proof.
  intros Hg. unfold within, guarded. induction seg as [|t seg IH]; cbn [fold_right map List.filter].
  - split; [simpl; lra|]. split; [intros _; constructor|reflexivity].
  - destruct IH as [[IH0 IH1] IHz]. rewrite Forall_cons_iff.
    destruct (Rle_dec t cutoff) as [Hle|Hgt].
    + specialize (Hg t). cbn [length]. rewrite S_INR. split; [lra|].
      split; [intros Hz; lra|]. intros [Hlt _]. lra.
    + split; [lra|]. rewrite Rplus_0_l, IHz. split; [|intros [_ H]; exact H].
      intros H. split; [lra|exact H].
Qed.

Lemma guarded_mono (c1 c2 : R) (g1 g2 : R -> R) (seg : list R) :
  c1 <= c2 -> (forall t, 0 <= g2 t) -> (forall t, t <= c1 -> g1 t <= g2 t) ->
  guarded c1 g1 seg <= guarded c2 g2 seg.
Proof.
  intros Hc Hg2 Hg. unfold guarded. induction seg as [|t seg IH]; simpl; [lra|].
  destruct (Rle_dec t c1), (Rle_dec t c2); try lra.
  - specialize (Hg t r). lra.
  - specialize (Hg2 t). lra.
Qed.

Lemma exp_le_mono (x y : R) : x <= y -> exp x <= exp y.
Proof. intros [H | ->]; [apply Rlt_le, exp_increasing, H | apply Rle_refl]. Qed.

Lemma gaussian_bounds (s t : R) : 0 < s -> 0 < exp ((- t) * t / s) <= 1.
Proof.
  intros Hs. split; [apply exp_pos|]. rewrite <- exp_0. apply exp_le_mono.
  unfold Rdiv. assert (0 < / s) by (apply Rinv_0_lt_compat, Hs).
  assert (0 <= t * t) by nra. nra.
Qed.

Lemma Forall2_map_map {A B C} (R : B -> C -> Prop) (f : A -> B) (g : A -> C) (l : list A) :
  (forall x, R (f x) (g x)) -> Forall2 R (map f l) (map g l).
Proof. intros H. induction l; simpl; constructor; auto. Qed.

Lemma combined_bounds (s st t : R) :
  0 < s -> 0 < (if Rle_dec t st then 1 else exp ((- (t - st)) * (t - st) / s)) <= 1.
Proof. intros Hs. destruct (Rle_dec t st); [lra|apply gaussian_bounds, Hs]. Qed.

Lemma guarded_ext_in (cutoff : R) (g1 g2 : R -> R) (seg : list R) :
  (forall t, In t seg -> g1 t = g2 t) -> guarded cutoff g1 seg = guarded cutoff g2 seg.
Proof.
  intros H. unfold guarded. f_equal. apply map_ext_in. intros t Ht.
  by rewrite (H t Ht).
Qed.

Lemma In_slice {A} (l : list A) (lo hi : nat) (x : A) :
  In x (Aggregator.slice l lo hi) -> In x l.
Proof.
  unfold Aggregator.slice. intros H. rewrite <- (take_drop lo l).
  apply in_or_app. right. rewrite <- (take_drop (hi - lo) (drop lo l)).
  apply in_or_app. left. exact H.
Qed.

Lemma In_segments {A} (l : list A) (offs : list nat) (seg : list A) (x : A) :
  In seg (Aggregator.segments l offs) -> In x seg -> In x l.
Proof.
  unfold Aggregator.segments. destruct (offs ++ [length l]) as [|lo his]; [done|].
  revert lo. induction his as [|hi his IH]; simpl; intros lo Hseg Hx; [done|].
  destruct Hseg as [<-|Hseg]; [exact (In_slice l lo hi x Hx)|exact (IH hi Hseg Hx)].
Qed.

(** At [sensitivity_ = 0] a group's loop raises as soon as it reaches a
    sample within the cutoff. *)
Lemma modified_segment_zero (cutoff : R) (seg : list R) (sum : R) :
  Decay.modified_gaussian_segment 0 cutoff seg sum
  = if forallb (fun t => if Rlt_dec cutoff t then true else false) seg
    then Aggregator.PyRet sum else Aggregator.PyRaise "ZeroDivisionError"%string.
Proof.
  revert sum. induction seg as [|t seg IH]; intros sum; [reflexivity|].
  cbn [Decay.modified_gaussian_segment forallb].
  destruct (Rlt_dec cutoff t); [exact (IH sum)|].
  by rewrite DecayFacts.py_div_zero.
Qed.

(** At [sensitivity_ = 0] the combined loop raises on a sample in
    [(static_traveltime, cutoff]], and otherwise counts the samples within
    the cutoff. *)
Lemma combined_segment_zero (cutoff st : R) (seg : list R) (sum : R) :
  Decay.combined_modified_gaussian_segment 0 cutoff st seg sum
  = if forallb (fun t => if Rlt_dec cutoff t then true
                         else if Rle_dec t st then true else false) seg
    then Aggregator.PyRet (sum + INR (within cutoff seg))
    else Aggregator.PyRaise "ZeroDivisionError"%string.
Proof.
  unfold within. revert sum. induction seg as [|t seg IH]; intros sum.
  - simpl. f_equal. ring.
  - cbn [Decay.combined_modified_gaussian_segment forallb List.filter].
    destruct (Rlt_dec cutoff t), (Rle_dec t cutoff); try lra.
    + rewrite IH. reflexivity.
    + destruct (Rle_dec t st).
      * rewrite IH. cbn [length]. rewrite S_INR.
        destruct (forallb _ seg); [f_equal; ring|reflexivity].
      * by rewrite DecayFacts.py_div_zero.
Qed.

Lemma forallb_segments_false {A} (p : A -> bool) (segs : list (list A)) :
  forallb (forallb p) segs = false <-> exists seg t, In seg segs /\ In t seg /\ p t = false.
Proof.
  split.
  - intros H. destruct (existsb (fun seg => negb (forallb p seg)) segs) eqn:E.
    + apply existsb_exists in E as (seg & Hseg & Hn). apply negb_true_iff in Hn.
      destruct (existsb (fun t => negb (p t)) seg) eqn:E2.
      * apply existsb_exists in E2 as (t & Ht & Hpt). apply negb_true_iff in Hpt. eauto.
      * exfalso. assert (forallb p seg = true); [|congruence].
        apply forallb_forall. intros t Ht. destruct (p t) eqn:Ept; [reflexivity|].
        assert (existsb (fun t => negb (p t)) seg = true); [|congruence].
        apply existsb_exists. exists t. by rewrite Ept.
    + exfalso. assert (forallb (forallb p) segs = true); [|congruence].
      apply forallb_forall. intros seg Hseg. destruct (forallb p seg) eqn:Eps; [reflexivity|].
      assert (existsb (fun seg => negb (forallb p seg)) segs = true); [|congruence].
      apply existsb_exists. exists seg. by rewrite Eps.
  - intros (seg & t & Hseg & Ht & Hpt). destruct (forallb (forallb p) segs) eqn:E; [|reflexivity].
    exfalso. rewrite forallb_forall in E. specialize (E seg Hseg).
    rewrite forallb_forall in E. rewrite (E t Ht) in Hpt. discriminate.
Qed.

Lemma forallb_segments_true {A} (p : A -> bool) (segs : list (list A)) :
  forallb (forallb p) segs = true <-> forall seg t, In seg segs -> In t seg -> p t = true.
Proof.
  rewrite forallb_forall. split.
  - intros H seg t Hseg Ht. specialize (H seg Hseg). rewrite forallb_forall in H. auto.
  - intros H seg Hseg. apply forallb_forall. intros t Ht. eauto.
Qed.

End DecayOutput.

Section DecayScores.
Local Open Scope R_scope.





(** X8: for a non-zero sensitivity and non-empty travel times, raising the
    cutoff never lowers a score of [modified_gaussian_per_grid] or of
    [combined_modified_gaussian_per_grid]. *)
Theorem gaussian_scores_mono_cutoff (travel_times : list R) (unique : list Z * list nat)
    (sensitivity cutoff1 cutoff2 static_traveltime : R) :
  sensitivity <> 0 -> travel_times <> [] -> cutoff1 <= cutoff2 ->
  (exists sc1 sc2,
     Decay.modified_gaussian_per_grid travel_times unique sensitivity cutoff1
     = Aggregator.PyRet sc1 /\
     Decay.modified_gaussian_per_grid travel_times unique sensitivity cutoff2
     = Aggregator.PyRet sc2 /\
     Forall2 Rle sc1 sc2) /\
  (exists sc1 sc2,
     Decay.combined_modified_gaussian_per_grid travel_times unique sensitivity cutoff1
       static_traveltime = Aggregator.PyRet sc1 /\
     Decay.combined_modified_gaussian_per_grid travel_times unique sensitivity cutoff2
       static_traveltime = Aggregator.PyRet sc2 /\
     Forall2 Rle sc1 sc2).
Proof.
  intros Hs Hne Hc.
  rewrite !DecayFacts.modified_per_grid_ret, !DecayFacts.combined_per_grid_ret by exact Hs.
  destruct travel_times as [|t0 tts]; [done|].
  split; do 2 eexists; (split; [reflexivity|]); (split; [reflexivity|]);
    apply DecayOutput.Forall2_map_map; intros seg.
  - apply DecayOutput.guarded_mono; [exact Hc| |intros t _; apply Rle_refl].
    intros t. apply Rlt_le, exp_pos.
  - apply DecayOutput.guarded_mono; [exact Hc| |intros t _; apply Rle_refl].
    intros t. destruct (Rle_dec t static_traveltime); [lra|apply Rlt_le, exp_pos].
Qed.

(** X8 at the travel times [[0; 1; 2]] in one group. *)
Lemma gaussian_scores_mono_cutoff_witness :
  (3600 <> 0) /\
  ([0; 1; 2] <> []) /\
  (1 <= 2) /\
  (exists sc1 sc2,
     Decay.modified_gaussian_per_grid [0; 1; 2] ([7%Z], [0%nat]) 3600 1 = Aggregator.PyRet sc1 /\
     Decay.modified_gaussian_per_grid [0; 1; 2] ([7%Z], [0%nat]) 3600 2 = Aggregator.PyRet sc2 /\
     Forall2 Rle sc1 sc2) /\
  (exists sc1 sc2,
     Decay.combined_modified_gaussian_per_grid [0; 1; 2] ([7%Z], [0%nat]) 3600 1 5
     = Aggregator.PyRet sc1 /\
     Decay.combined_modified_gaussian_per_grid [0; 1; 2] ([7%Z], [0%nat]) 3600 2 5
     = Aggregator.PyRet sc2 /\
     Forall2 Rle sc1 sc2).
Proof.
  assert (H0 : 3600 <> 0) by (lra).
  assert (H1 : [0; 1; 2] <> []) by (discriminate).
  assert (H2 : 1 <= 2) by (lra).
  split; [exact H0|]. split; [exact H1|]. split; [exact H2|].
  exact (gaussian_scores_mono_cutoff _ _ _ _ _ _ H0 H1 H2).
Defined.

(** X9: for a positive sensitivity, a non-negative [static_traveltime] and
    non-empty travel times, no score of [combined_modified_gaussian_per_grid]
    is below the score [modified_gaussian_per_grid] gives the same group
    with the same sensitivity and cutoff. *)
Theorem combined_ge_modified (travel_times : list R) (unique : list Z * list nat)
    (sensitivity cutoff static_traveltime : R) :
  0 < sensitivity -> 0 <= static_traveltime -> travel_times <> [] ->
  exists sm sc,
    Decay.modified_gaussian_per_grid travel_times unique sensitivity cutoff
    = Aggregator.PyRet sm /\
    Decay.combined_modified_gaussian_per_grid travel_times unique sensitivity cutoff
      static_traveltime = Aggregator.PyRet sc /\
    Forall2 Rle sm sc.
Proof.
  intros Hs Hst Hne.
  rewrite DecayFacts.modified_per_grid_ret, DecayFacts.combined_per_grid_ret by lra.
  destruct travel_times as [|t0 tts]; [done|].
  do 2 eexists. split; [reflexivity|]. split; [reflexivity|].
  apply DecayOutput.Forall2_map_map. intros seg.
  assert (Hs' : 0 < sensitivity / (60 * 60)) by lra.
  apply DecayOutput.guarded_mono; [apply Rle_refl| |].
  - intros t. apply Rlt_le, DecayOutput.combined_bounds, Hs'.
  - intros t _. destruct (Rle_dec t static_traveltime) as [Hle|Hgt].
    + apply DecayOutput.gaussian_bounds, Hs'.
    + apply DecayOutput.exp_le_mono. unfold Rdiv.
      assert (0 < / (sensitivity / (60 * 60))) by (apply Rinv_0_lt_compat, Hs').
      apply Rmult_le_compat_r; [lra|]. nra.
Qed.

(** X9 at the travel times [[0; 1; 2]] in one group. *)
Lemma combined_ge_modified_witness :
  (0 < 3600) /\
  (0 <= 5) /\
  ([0; 1; 2] <> []) /\
  exists sm sc,
    Decay.modified_gaussian_per_grid [0; 1; 2] ([7%Z], [0%nat]) 3600 100 = Aggregator.PyRet sm /\
    Decay.combined_modified_gaussian_per_grid [0; 1; 2] ([7%Z], [0%nat]) 3600 100 5
    = Aggregator.PyRet sc /\
    Forall2 Rle sm sc.
Proof.
  assert (H0 : 0 < 3600) by (lra).
  assert (H1 : 0 <= 5) by (lra).
  assert (H2 : [0; 1; 2] <> []) by (discriminate).
  split; [exact H0|]. split; [exact H1|]. split; [exact H2|].
  exact (combined_ge_modified _ _ _ _ _ H0 H1 H2).
Defined.

(** X10: for a non-zero sensitivity and non-negative travel times,
    [combined_modified_gaussian_per_grid] with [static_traveltime = 0]
    returns the scores of [modified_gaussian_per_grid]. *)
Theorem combined_static_zero (travel_times : list R) (unique : list Z * list nat)
    (sensitivity cutoff : R) :
  sensitivity <> 0 -> Forall (fun t => 0 <= t) travel_times ->
  Decay.combined_modified_gaussian_per_grid travel_times unique sensitivity cutoff 0
  = Decay.modified_gaussian_per_grid travel_times unique sensitivity cutoff.
Proof.
  intros Hs Hnn.
  rewrite DecayFacts.modified_per_grid_ret, DecayFacts.combined_per_grid_ret by exact Hs.
  destruct travel_times as [|t0 tts] eqn:Ett; [reflexivity|]. rewrite <- Ett in *.
  f_equal. apply map_ext_in. intros seg Hseg.
  apply DecayOutput.guarded_ext_in. intros t Ht.
  assert (Ht0 : 0 <= t).
  { rewrite List.Forall_forall in Hnn. apply Hnn. exact (DecayOutput.In_segments _ _ _ _ Hseg Ht). }
  destruct (Rle_dec t 0) as [Hle|Hgt].
  - assert (t = 0) as -> by lra. rewrite <- exp_0. f_equal. unfold Rdiv. ring.
  - by rewrite Rminus_0_r.
Qed.

(** X10 at the travel times [[0; 1; 2]] in one group. *)
Lemma combined_static_zero_witness :
  (3600 <> 0) /\
  (Forall (fun t => 0 <= t) [0; 1; 2]) /\
  Decay.combined_modified_gaussian_per_grid [0; 1; 2] ([7%Z], [0%nat]) 3600 100 0
  = Decay.modified_gaussian_per_grid [0; 1; 2] ([7%Z], [0%nat]) 3600 100.
Proof.
  assert (H0 : 3600 <> 0) by (lra).
  assert (H1 : Forall (fun t => 0 <= t) [0; 1; 2]) by (repeat constructor; lra).
  split; [exact H0|]. split; [exact H1|].
  exact (combined_static_zero _ _ _ _ H0 H1).
Defined.

(** X16: with [sensitivity = 0] (which validation accepts) and non-empty
    travel times, [modified_gaussian_per_grid] raises [ZeroDivisionError]
    as soon as some group has a travel time within the cutoff, and otherwise
    returns all zeros; [combined_modified_gaussian_per_grid] raises as soon as
    some group has a travel time in [(static_traveltime, cutoff]], and
    otherwise returns for each group the number of its travel times within
    the cutoff. *)
Theorem gaussian_zero_sensitivity (travel_times : list R) (unique : list Z * list nat)
    (cutoff static_traveltime : R) :
  travel_times <> [] ->
  ((exists seg t, In seg (Aggregator.segments travel_times unique.2) /\ In t seg /\
                  t <= cutoff) ->
   Decay.modified_gaussian_per_grid travel_times unique 0 cutoff
   = Aggregator.PyRaise "ZeroDivisionError"%string) /\
  ((forall seg t, In seg (Aggregator.segments travel_times unique.2) -> In t seg ->
                  cutoff < t) ->
   Decay.modified_gaussian_per_grid travel_times unique 0 cutoff
   = Aggregator.PyRet (map (fun _ => 0) (Aggregator.segments travel_times unique.2))) /\
  ((exists seg t, In seg (Aggregator.segments travel_times unique.2) /\ In t seg /\
                  static_traveltime < t <= cutoff) ->
   Decay.combined_modified_gaussian_per_grid travel_times unique 0 cutoff static_traveltime
   = Aggregator.PyRaise "ZeroDivisionError"%string) /\
  ((forall seg t, In seg (Aggregator.segments travel_times unique.2) -> In t seg ->
                  t <= cutoff -> t <= static_traveltime) ->
   Decay.combined_modified_gaussian_per_grid travel_times unique 0 cutoff static_traveltime
   = Aggregator.PyRet (map (fun seg => INR (Decay.within cutoff seg))
                           (Aggregator.segments travel_times unique.2))).
Proof.
  intros Hne.
  set (pm := fun t => if Rlt_dec cutoff t then true else false).
  set (pc := fun t => if Rlt_dec cutoff t then true
                      else if Rle_dec t static_traveltime then true else false).
  assert (Em : Decay.modified_gaussian_per_grid travel_times unique 0 cutoff
               = if forallb (forallb pm) (Aggregator.segments travel_times unique.2)
                 then Aggregator.PyRet (map (fun _ => 0) (Aggregator.segments travel_times unique.2))
                 else Aggregator.PyRaise "ZeroDivisionError"%string).
  { unfold Decay.modified_gaussian_per_grid.
    destruct travel_times as [|t0 tts] eqn:Ett; [done|]. rewrite <- Ett. cbv zeta.
    rewrite DecayFacts.per_hour_zero.
    apply DecayFacts.per_segment_cases. intros seg.
    rewrite DecayOutput.modified_segment_zero. reflexivity. }
  assert (Ec : Decay.combined_modified_gaussian_per_grid travel_times unique 0 cutoff
                 static_traveltime
               = if forallb (forallb pc) (Aggregator.segments travel_times unique.2)
                 then Aggregator.PyRet (map (fun seg => INR (Decay.within cutoff seg))
                                            (Aggregator.segments travel_times unique.2))
                 else Aggregator.PyRaise "ZeroDivisionError"%string).
  { unfold Decay.combined_modified_gaussian_per_grid.
    destruct travel_times as [|t0 tts] eqn:Ett; [done|]. rewrite <- Ett. cbv zeta.
    rewrite DecayFacts.per_hour_zero.
    apply DecayFacts.per_segment_cases. intros seg.
    rewrite DecayOutput.combined_segment_zero. fold pc.
    destruct (forallb pc seg); [f_equal; ring|reflexivity]. }
  split; [|split; [|split]].
  - intros (seg & t & Hseg & Ht & Hle). rewrite Em.
    replace (forallb (forallb pm) _) with false; [reflexivity|].
    symmetry. apply DecayOutput.forallb_segments_false. exists seg, t.
    split; [exact Hseg|]. split; [exact Ht|].
    unfold pm. destruct (Rlt_dec cutoff t); [lra|reflexivity].
  - intros Hall. rewrite Em.
    replace (forallb (forallb pm) _) with true; [reflexivity|].
    symmetry. apply DecayOutput.forallb_segments_true. intros seg t Hseg Ht.
    unfold pm. destruct (Rlt_dec cutoff t) as [_|Hn]; [reflexivity|].
    exfalso. exact (Hn (Hall seg t Hseg Ht)).
  - intros (seg & t & Hseg & Ht & Hlo & Hhi). rewrite Ec.
    replace (forallb (forallb pc) _) with false; [reflexivity|].
    symmetry. apply DecayOutput.forallb_segments_false. exists seg, t.
    split; [exact Hseg|]. split; [exact Ht|].
    unfold pc. destruct (Rlt_dec cutoff t); [lra|]. destruct (Rle_dec t static_traveltime); [lra|].
    reflexivity.
  - intros Hall. rewrite Ec.
    replace (forallb (forallb pc) _) with true; [reflexivity|].
    symmetry. apply DecayOutput.forallb_segments_true. intros seg t Hseg Ht.
    unfold pc. destruct (Rlt_dec cutoff t) as [_|Hn]; [reflexivity|].
    destruct (Rle_dec t static_traveltime) as [_|Hn']; [reflexivity|].
    exfalso. apply Hn', (Hall seg t Hseg Ht). lra.
Qed.

(** X16 at the travel times [[0; 1; 2]] in one group. *)
Lemma gaussian_zero_sensitivity_witness :
  ([0; 1; 2] <> []) /\
  ((exists seg t, In seg (Aggregator.segments [0; 1; 2] ([7%Z], [0%nat]).2) /\ In t seg /\
                  t <= 100) ->
   Decay.modified_gaussian_per_grid [0; 1; 2] ([7%Z], [0%nat]) 0 100
   = Aggregator.PyRaise "ZeroDivisionError"%string) /\
  ((forall seg t, In seg (Aggregator.segments [0; 1; 2] ([7%Z], [0%nat]).2) -> In t seg ->
                  100 < t) ->
   Decay.modified_gaussian_per_grid [0; 1; 2] ([7%Z], [0%nat]) 0 100
   = Aggregator.PyRet (map (fun _ => 0) (Aggregator.segments [0; 1; 2] ([7%Z], [0%nat]).2))) /\
  ((exists seg t, In seg (Aggregator.segments [0; 1; 2] ([7%Z], [0%nat]).2) /\ In t seg /\
                  5 < t <= 100) ->
   Decay.combined_modified_gaussian_per_grid [0; 1; 2] ([7%Z], [0%nat]) 0 100 5
   = Aggregator.PyRaise "ZeroDivisionError"%string) /\
  ((forall seg t, In seg (Aggregator.segments [0; 1; 2] ([7%Z], [0%nat]).2) -> In t seg ->
                  t <= 100 -> t <= 5) ->
   Decay.combined_modified_gaussian_per_grid [0; 1; 2] ([7%Z], [0%nat]) 0 100 5
   = Aggregator.PyRet (map (fun seg => INR (Decay.within 100 seg))
                           (Aggregator.segments [0; 1; 2] ([7%Z], [0%nat]).2))).
Proof.
  assert (H0 : [0; 1; 2] <> []) by discriminate.
  split; [exact H0|].
  exact (gaussian_zero_sensitivity _ _ _ _ H0).
Defined.

End DecayScores.

(* ------------------------------------------------------------------ *)
(** ** The classes [quantile_classify] writes *)
Module ClassifyOutput.
Import Aggregator Classify.
Local Open Scope Qc_scope.

Lemma length_mask_set_eq (out : list cell) (a : list score) (m : score -> bool) (v : Z) :
  length out = length a -> length (mask_set out a m v) = length a.
Proof. intros H. unfold mask_set. rewrite length_zip_with. unfold cell in *. lia. Qed.

Lemma lookup_mask_set (out : list cell) (a : list score) (m : score -> bool) (v : Z)
    (i : nat) (x : score) (o : cell) :
  a !! i = Some x -> out !! i = Some o ->
  mask_set out a m v !! i = Some (if m x then Some v else o).
Proof. intros Ha Ho. unfold mask_set. unfold cell in *. by rewrite lookup_zip_with, Ho, Ha. Qed.

Lemma lookup_repeat {A} (x : A) (n i : nat) : (i < n)%nat -> repeat x n !! i = Some x.
Proof.
  revert i. induction n as [|n IH]; intros [|i] Hi; simpl; [lia|lia|reflexivity|].
  apply IH. lia.
Qed.

Lemma length_band_loop_eq (qs : list Qc) (a : list score) (ids : list nat)
    (out out' : list cell) :
  band_loop qs a out ids = Some out' -> length out = length a -> length out' = length a.
Proof.
  revert out. induction ids as [|j ids IH]; intros out Hb Hl; simpl in Hb.
  - by injection Hb as <-.
  - destruct (qs !! j), (qs !! S j); try discriminate.
    apply (IH _ Hb). by apply length_mask_set_eq.
Qed.

(** The band loop only fails on an index past the end of [quantiles]. *)
Lemma band_loop_some (qs : list Qc) (a : list score) (ids : list nat) (out : list cell) :
  (forall j, j ∈ ids -> (S j < length qs)%nat) ->
  exists out', band_loop qs a out ids = Some out'.
Proof.
  revert out. induction ids as [|j ids IH]; intros out Hids; simpl; [eauto|].
  assert (Hj : (S j < length qs)%nat) by (apply Hids, elem_of_cons; auto).
  destruct (lookup_lt_is_Some_2 qs j) as [lo ->]; [lia|].
  destruct (lookup_lt_is_Some_2 qs (S j)) as [hi ->]; [lia|].
  apply IH. intros j' Hj'. apply Hids, elem_of_cons. auto.
Qed.

(** A slot after the band loop: unchanged, or the class [j + 2] of a band
    [j] that holds the score; and some band class whenever a band holds it. *)
Lemma band_loop_cell (qs : list Qc) (a : list score) (ids : list nat) (out out' : list cell)
    (i : nat) (x : score) (o : cell) :
  band_loop qs a out ids = Some out' -> length out = length a ->
  a !! i = Some x -> out !! i = Some o ->
  exists o', out' !! i = Some o' /\
    (o' = o \/ exists j lo hi, j ∈ ids /\ qs !! j = Some lo /\ qs !! S j = Some hi /\
                              ge x lo && lt x hi = true /\ o' = Some (Z.of_nat j + 2)%Z) /\
    (forall j lo hi, j ∈ ids -> qs !! j = Some lo -> qs !! S j = Some hi ->
                     ge x lo && lt x hi = true ->
                     exists j', j' ∈ ids /\ o' = Some (Z.of_nat j' + 2)%Z).
Proof.
  revert out o. induction ids as [|j0 ids IH]; intros out o Hb Hl Ha Ho; simpl in Hb.
  - injection Hb as <-. exists o. split; [exact Ho|]. split; [by left|].
    intros j lo hi Hj. by apply elem_of_nil in Hj.
  - destruct (qs !! j0) as [lo0|] eqn:Elo; [|discriminate].
    destruct (qs !! S j0) as [hi0|] eqn:Ehi; [|discriminate].
    pose proof (lookup_mask_set out a (fun x => ge x lo0 && lt x hi0) (Z.of_nat j0 + 2)
                  i x o Ha Ho) as Ho1.
    destruct (IH _ _ Hb (length_mask_set_eq _ _ _ _ Hl) Ha Ho1) as (o' & Ho' & Hor & Hhit).
    exists o'. split; [exact Ho'|]. split.
    + destruct Hor as [->|(j & lo & hi & Hj & Hlo & Hhi & Hx & ->)].
      * destruct (ge x lo0 && lt x hi0) eqn:Ex; [right|left; reflexivity].
        exists j0, lo0, hi0. split; [apply elem_of_cons; auto|]. auto.
      * right. exists j, lo, hi. split; [apply elem_of_cons; auto|]. auto.
    + intros j lo hi Hj Hlo Hhi Hx. apply elem_of_cons in Hj as [->|Hj].
      * rewrite Elo in Hlo. rewrite Ehi in Hhi. injection Hlo as <-. injection Hhi as <-.
        rewrite Hx in Hor. simpl in Hor.
        destruct Hor as [->|(j & lo & hi & Hj & _ & _ & _ & ->)].
        -- exists j0. split; [apply elem_of_cons; auto|reflexivity].
        -- exists j. split; [apply elem_of_cons; auto|reflexivity].
      * destruct (Hhit j lo hi Hj Hlo Hhi Hx) as (j' & Hj' & ->).
        exists j'. split; [apply elem_of_cons; auto|reflexivity].
Qed.

Lemma positives_pos (a : list score) : Forall (fun x => 0 < x) (positives a).
Proof.
  induction a as [|s a IH]; simpl; [constructor|].
  destruct s as [x|]; [|exact IH]. case_bool_decide; [constructor; auto|exact IH].
Qed.

Lemma positives_nonempty (a : list score) : existsb gt0 a = true -> positives a <> [].
Proof.
  induction a as [|s a IH]; simpl; [discriminate|].
  destruct s as [x|]; simpl; [|exact IH].
  case_bool_decide; [intros _; discriminate|exact IH].
Qed.

Lemma existsb_gt0_filter (a : list score) :
  length (filter (fun x => gt0 x = true) a) = 0%nat <-> existsb gt0 a = false.
Proof.
  induction a as [|s a IH]; simpl; [done|].
  rewrite filter_cons. case_decide as Hs.
  - rewrite Hs. simpl. split; discriminate.
  - apply not_true_is_false in Hs. by rewrite Hs.
Qed.

Lemma existsb_false_lookup (a : list score) (i : nat) (x : score) :
  existsb gt0 a = false -> a !! i = Some x -> gt0 x = false.
Proof.
  revert i. induction a as [|s a IH]; intros [|i] Hf Hx; simpl in *; try discriminate.
  - injection Hx as <-. by apply orb_false_iff in Hf as [? _].
  - apply orb_false_iff in Hf as [_ Hf]. exact (IH i Hf Hx).
Qed.

Lemma sorted_nth_le (s : list Qc) (i j : nat) :
  StronglySorted Qcle s -> (i <= j)%nat -> (j < length s)%nat -> nth i s 0 <= nth j s 0.
Proof.
  revert i j. induction s as [|y s IH]; intros i j Hs Hij Hj; simpl in Hj; [lia|].
  apply StronglySorted_inv in Hs as [Hs Hall].
  destruct i as [|i], j as [|j]; simpl.
  - apply Qcle_refl.
  - rewrite List.Forall_forall in Hall. apply Hall, nth_In. lia.
  - lia.
  - apply IH; [exact Hs|lia|lia].
Qed.

(** [np.quantile] of positive values at a non-negative fraction is
    positive. *)
Lemma np_quantile_pos (xs : list Qc) (p : Qc) :
  xs <> [] -> Forall (fun x => 0 < x) xs -> 0 <= p -> 0 < np_quantile xs p.
Proof.
  intros Hne Hpos Hp. unfold np_quantile. cbv zeta.
  assert (Total Qcle).
  { intros x y. destruct (Qclt_le_dec x y); [left; by apply Qclt_le_weak|by right]. }
  assert (Transitive Qcle) by (intros x y z; apply Qcle_trans).
  pose proof (Sorted_merge_sort Qcle xs) as Hsort.
  pose proof (merge_sort_Permutation Qcle xs) as Hperm.
  set (s := merge_sort Qcle xs) in *.
  apply Sorted_StronglySorted in Hsort; [|exact _].
  assert (Hspos : Forall (fun x => 0 < x) s) by (by rewrite Hperm).
  assert (Hn : (0 < length s)%nat) by (rewrite Hperm; destruct xs; [done|simpl; lia]).
  set (n := length s) in *.
  set (h := p * Qc_of_Z (Z.of_nat n - 1)).
  assert (Hh : 0 <= h).
  { unfold h. rewrite <- (Qcmult_0_l (Qc_of_Z (Z.of_nat n - 1))).
    apply Qcmult_le_compat_r; [exact Hp|].
    rewrite <- Z2Qc_inj_0. apply (proj1 (Z2Qc_inj_le _ _)). lia. }
  assert (Hfl : (0 <= Qfloor h)%Z).
  { change 0%Z with (Qfloor 0). apply Qfloor_resp_le. exact Hh. }
  set (lo := Nat.min (Z.to_nat (Qfloor h)) (n - 1)).
  set (hi := Nat.min (S lo) (n - 1)).
  assert (Hlo : (lo < n)%nat) by (unfold lo; lia).
  assert (Hhi : (lo <= hi /\ hi < n)%nat) by (unfold hi, lo; lia).
  assert (Hg : 0 <= h - Qc_of_Z (Z.of_nat lo)).
  { apply (proj1 (Qcle_minus_iff _ _)). apply (Qcle_trans _ (Qc_of_Z (Qfloor h))).
    - apply (proj1 (Z2Qc_inj_le _ _)). unfold lo. lia.
    - exact (Qfloor_le h). }
  assert (Hd : 0 <= nth hi s 0 - nth lo s 0).
  { apply (proj1 (Qcle_minus_iff _ _)). apply sorted_nth_le; [exact Hsort|lia|lia]. }
  assert (Hl0 : 0 < nth lo s 0).
  { rewrite List.Forall_forall in Hspos. apply Hspos, nth_In, Hlo. }
  apply (Qclt_le_trans _ (nth lo s 0 + 0)); [by rewrite Qcplus_0_r|].
  apply Qcplus_le_compat; [apply Qcle_refl|].
  rewrite <- (Qcmult_0_l (h - Qc_of_Z (Z.of_nat lo))) at 1.
  by apply Qcmult_le_compat_r.
Qed.

(** Between the first and the last quantile, some band of consecutive
    quantiles holds the score. *)
Lemma band_cover (qs : list Qc) (x q0 ql : Qc) :
  head qs = Some q0 -> last qs = Some ql -> q0 <= x -> x < ql ->
  exists j lo hi, qs !! j = Some lo /\ qs !! S j = Some hi /\ lo <= x /\ x < hi.
Proof.
  revert q0. induction qs as [|y qs IH]; intros q0 Hh Hl H0 H1; [discriminate|].
  simpl in Hh. injection Hh as ->.
  destruct qs as [|y' qs'].
  - simpl in Hl. injection Hl as ->. exfalso. exact (Qclt_not_le _ _ H1 H0).
  - destruct (Qclt_le_dec x y') as [Hx|Hx].
    + exists 0%nat, q0, y'. auto.
    + simpl in Hl. destruct (IH y' eq_refl Hl Hx H1) as (j & lo & hi & Hlo & Hhi & Hb).
      exists (S j), lo, hi. auto.
Qed.

Lemma classify_with_some (q : list Qc) (a : list score) (NQ : Z) :
  (2 <= NQ)%Z -> Z.of_nat (length q) = (NQ - 1)%Z ->
  exists out, classify_with q a NQ = Some out.
Proof.
  intros HNQ Hlen. unfold classify_with.
  set (qs := map (np_quantile (positives a)) q).
  assert (Hlqs : length qs = length q) by apply length_map.
  assert (Hne : qs <> []) by (intros E; rewrite E in Hlqs; simpl in Hlqs; lia).
  destruct qs as [|q0 qs'] eqn:Eqs; [done|]. rewrite <- Eqs in *.
  destruct (last qs) as [ql|] eqn:El.
  2:{ apply last_None in El. done. }
  assert (Eh : head qs = Some q0) by (rewrite Eqs; reflexivity). rewrite Eh.
  match goal with
  | |- context [band_loop ?qs1 ?a1 ?o1 ?ids1] =>
      destruct (band_loop_some qs1 a1 ids1 o1) as [out' ->]
  end.
  - intros j Hj. apply elem_of_seq in Hj. lia.
  - eauto.
Qed.

(** The slots [quantile_classify] fills once the quantiles are known, for
    thresholds [q] of [NQ - 1] non-negative fractions and scores with a
    positive value. *)
Lemma classify_with_cells (q : list Qc) (a : list score) (NQ : Z) (out : list cell) :
  Forall (fun p => 0 <= p) q -> Z.of_nat (length q) = (NQ - 1)%Z -> existsb gt0 a = true ->
  classify_with q a NQ = Some out ->
  length out = length a /\
  forall i x, a !! i = Some x ->
    match x with
    | NaN => out !! i = Some (Some 0%Z)
    | Num v => (v = 0 -> out !! i = Some (Some 0%Z)) /\
               (0 < v -> exists k, out !! i = Some (Some k) /\ (1 <= k <= NQ)%Z) /\
               (v < 0 -> out !! i = Some None)
    end.
Proof.
  intros Hq Hlen Hpos Hc. unfold classify_with in Hc.
  set (qs := map (np_quantile (positives a)) q) in *.
  assert (Hqs : Forall (fun y => 0 < y) qs).
  { apply List.Forall_map. eapply List.Forall_impl; [|exact Hq]. intros p Hp.
    apply np_quantile_pos; [by apply positives_nonempty|apply positives_pos|exact Hp]. }
  assert (Hqs' : forall y, y ∈ qs -> 0 < y).
  { intros y Hy. rewrite List.Forall_forall in Hqs. by apply Hqs, list_elem_of_In. }
  assert (Hlqs : length qs = length q) by apply length_map.
  destruct (head qs) as [q0|] eqn:Eh; [|discriminate].
  destruct (last qs) as [ql|] eqn:El; [|discriminate].
  assert (Hq0 : 0 < q0) by (apply Hqs', head_Some_elem_of, Eh).
  assert (Hql : 0 < ql) by (apply Hqs', last_Some_elem_of, El).
  assert (HNQ : (2 <= NQ)%Z).
  { assert (length qs <> 0%nat) by (intros E; apply nil_length_inv in E; by rewrite E in Eh).
    lia. }
  set (out0 := repeat (None : cell) (length a)) in *.
  set (out1 := mask_set out0 a eq0 0) in *.
  set (out2 := mask_set out1 a (fun x => gt0 x && lt x q0) 1) in *.
  set (out3 := mask_set out2 a (fun x => ge x ql) NQ) in *.
  destruct (band_loop qs a out3 (seq 0 (Z.to_nat (NQ - 2)))) as [out4|] eqn:Eb;
    [|discriminate].
  injection Hc as <-.
  assert (L0 : length out0 = length a) by apply repeat_length.
  assert (L1 : length out1 = length a) by (apply length_mask_set_eq, L0).
  assert (L2 : length out2 = length a) by (apply length_mask_set_eq, L1).
  assert (L3 : length out3 = length a) by (apply length_mask_set_eq, L2).
  assert (L4 : length out4 = length a) by exact (length_band_loop_eq _ _ _ _ _ Eb L3).
  split; [by apply length_mask_set_eq|].
  intros i x Hx.
  assert (Hi : (i < length a)%nat) by (eapply lookup_lt_Some; exact Hx).
  assert (E0 : out0 !! i = Some None) by (apply lookup_repeat; exact Hi).
  assert (E1 : out1 !! i = Some (if eq0 x then Some 0%Z else None))
    by exact (lookup_mask_set out0 a eq0 0 i x None Hx E0).
  assert (E2 : out2 !! i = Some (if gt0 x && lt x q0 then Some 1%Z
                                 else if eq0 x then Some 0%Z else None))
    by exact (lookup_mask_set out1 a _ 1 i x _ Hx E1).
  assert (E3 : out3 !! i = Some (if ge x ql then Some NQ
                                 else if gt0 x && lt x q0 then Some 1%Z
                                 else if eq0 x then Some 0%Z else None))
    by exact (lookup_mask_set out2 a _ NQ i x _ Hx E2).
  destruct (band_loop_cell _ _ _ _ _ i x _ Eb L3 Hx E3) as (o4 & E4 & Hor & Hhit).
  rewrite (lookup_mask_set out4 a isnan 0 i x o4 Hx E4).
  destruct x as [v|]; [|reflexivity]. simpl isnan. cbv iota.
  (* no band holds a score that is not positive *)
  assert (Hnohit : v <= 0 ->
    o4 = (if ge (Num v) ql then Some NQ
          else if gt0 (Num v) && lt (Num v) q0 then Some 1%Z
          else if eq0 (Num v) then Some 0%Z else None)).
  { intros Hv. destruct Hor as [Ho|(j & lo & hi & Hj & Hlo & Hhi & Hb & _)]; [exact Ho|].
    exfalso. simpl in Hb. apply andb_true_iff in Hb as [Hge _].
    apply bool_decide_eq_true in Hge.
    assert (Hlo0 : 0 < lo) by (apply Hqs', (list_elem_of_lookup_2 _ _ _ Hlo)).
    apply (Qclt_not_le _ _ Hlo0). exact (Qcle_trans _ _ _ Hge Hv). }
  split; [|split].
  - intros ->. rewrite Hnohit by apply Qcle_refl. simpl.
    rewrite (bool_decide_eq_false_2 (ql <= 0)) by exact (Qclt_not_le _ _ Hql).
    reflexivity.
  - intros Hv.
    assert (Hband : forall j, (Z.of_nat j < NQ - 2)%Z -> (1 <= Z.of_nat j + 2 <= NQ)%Z) by lia.
    assert (Hseq : forall j, j ∈ seq 0 (Z.to_nat (NQ - 2)) -> (Z.of_nat j < NQ - 2)%Z).
    { intros j Hj. apply elem_of_seq in Hj. lia. }
    destruct Hor as [Ho4|(j & lo & hi & Hj & _ & _ & _ & ->)].
    2:{ eexists. split; [reflexivity|]. by apply Hband, Hseq. }
    destruct (ge (Num v) ql) eqn:Ege; [exists NQ; rewrite Ho4; split; [reflexivity|lia]|].
    destruct (gt0 (Num v) && lt (Num v) q0) eqn:Elt; [exists 1%Z; rewrite Ho4; split; [reflexivity|lia]|].
    simpl in Ege, Elt. rewrite (bool_decide_eq_true_2 (0 < v)) in Elt by exact Hv.
    simpl in Elt. apply bool_decide_eq_false in Ege, Elt.
    apply Qcnot_le_lt in Ege. apply Qcnot_lt_le in Elt.
    destruct (band_cover qs v q0 ql Eh El Elt Ege) as (j & lo & hi & Hlo & Hhi & Hlov & Hvhi).
    assert (Hj : j ∈ seq 0 (Z.to_nat (NQ - 2))).
    { apply elem_of_seq. apply lookup_lt_Some in Hhi. lia. }
    destruct (Hhit j lo hi Hj Hlo Hhi) as (j' & Hj' & ->).
    { simpl. by rewrite !bool_decide_eq_true_2. }
    eexists. split; [reflexivity|]. by apply Hband, Hseq.
  - intros Hv. rewrite Hnohit by (apply Qclt_le_weak, Hv). simpl.
    rewrite (bool_decide_eq_false_2 (ql <= v))
      by (intros H; exact (Qclt_not_le _ _ (Qclt_trans _ _ _ Hv Hql) H)).
    rewrite (bool_decide_eq_false_2 (0 < v)) by exact (Qclt_not_le _ _ Hv ∘ Qclt_le_weak _ _).
    rewrite (bool_decide_eq_false_2 (v = 0)) by (intros ->; exact (Qclt_not_eq _ _ Hv eq_refl)).
    reflexivity.
Qed.

Lemma quantile_classify_nonempty_eq (a : list score) (NQ : Z) :
  a <> [] ->
  quantile_classify (Some a) NQ
  = if decide (length (filter (fun x => gt0 x = true) a) = 0%nat)
    then PyRet (repeat (Some 0%Z) (length a))
    else match arange_fracs NQ with
         | None => PyRaise "ZeroDivisionError"
         | Some q => match classify_with q a NQ with
                     | Some out => PyRet out
                     | None => PyRaise "IndexError"
                     end
         end.
Proof. destruct a; [done|reflexivity]. Qed.

End ClassifyOutput.



(** X12: with the default [NQ = 5], [quantile_classify] never raises on an
    array of finite or [nan] scores and returns one class per score: [nan] and 0 get class
    0 and a positive score a class between 1 and 5; a negative score gets 0
    when no score is positive, and is otherwise never written (its
    [np.empty] slot stays unassigned). *)
Theorem quantile_classify_default_classes (a : list Classify.score) :
  exists out, Classify.quantile_classify (Some a) 5 = Aggregator.PyRet out /\
  length out = length a /\
  forall i x, a !! i = Some x ->
    match x with
    | Classify.NaN => out !! i = Some (Some 0%Z)
    | Classify.Num v =>
        (v = 0%Qc -> out !! i = Some (Some 0%Z)) /\
        ((0 < v)%Qc -> exists k, out !! i = Some (Some k) /\ (1 <= k <= 5)%Z) /\
        ((v < 0)%Qc -> out !! i = Some (if existsb Classify.gt0 a then None else Some 0%Z))
    end.
Proof.
  destruct (decide (a = [])) as [->|Hne].
  { exists []. split; [reflexivity|]. split; [reflexivity|].
    intros i x Hx. by rewrite lookup_nil in Hx. }
  rewrite (ClassifyOutput.quantile_classify_nonempty_eq a 5 Hne).
  case_decide as Hz.
  - apply ClassifyOutput.existsb_gt0_filter in Hz.
    exists (repeat (Some 0%Z) (length a)). split; [reflexivity|].
    split; [apply repeat_length|].
    intros i x Hx.
    assert (Hi : (i < length a)%nat) by (eapply lookup_lt_Some; exact Hx).
    rewrite (ClassifyOutput.lookup_repeat _ _ _ Hi), Hz.
    pose proof (ClassifyOutput.existsb_false_lookup a i x Hz Hx) as Hg.
    destruct x as [v|]; [|reflexivity].
    split; [reflexivity|]. split; [|reflexivity].
    intros Hv. exfalso. simpl in Hg. rewrite bool_decide_eq_true_2 in Hg by exact Hv.
    discriminate.
  - assert (Hpos : existsb Classify.gt0 a = true).
    { destruct (existsb Classify.gt0 a) eqn:E; [reflexivity|].
      exfalso. by apply Hz, ClassifyOutput.existsb_gt0_filter. }
    assert (Har : Classify.arange_fracs 5
                  = Some (map (fun k => Q2Qc (Z.of_nat k # 5)) [1; 2; 3; 4]%nat))
      by reflexivity.
    rewrite Har.
    set (q := map (fun k => Q2Qc (Z.of_nat k # 5)) [1; 2; 3; 4]%nat).
    assert (Hq : Forall (fun p => (0 <= p)%Qc) q).
    { apply (bool_decide_unpack _). vm_compute. reflexivity. }
    assert (Hlen : Z.of_nat (length q) = (5 - 1)%Z) by reflexivity.
    destruct (ClassifyOutput.classify_with_some q a 5 ltac:(lia) Hlen) as [out Hout].
    rewrite Hout. exists out. split; [reflexivity|].
    destruct (ClassifyOutput.classify_with_cells q a 5 out Hq Hlen Hpos Hout) as [Hl Hc].
    split; [exact Hl|]. intros i x Hx. rewrite Hpos. exact (Hc i x Hx).
Qed.

(** X13: when no score is positive, [quantile_classify] returns all zeros
    for any [NQ] (negative scores included, and without dividing by [NQ]);
    when some score is positive, [NQ = 0] raises [ZeroDivisionError] and
    any other [NQ < 2] raises [IndexError] (the threshold range is empty). *)
Theorem quantile_classify_errors (a : list Classify.score) (NQ : Z) :
  (existsb Classify.gt0 a = false ->
   Classify.quantile_classify (Some a) NQ = Aggregator.PyRet (repeat (Some 0%Z) (length a))) /\
  (existsb Classify.gt0 a = true -> NQ = 0%Z ->
   Classify.quantile_classify (Some a) NQ = Aggregator.PyRaise "ZeroDivisionError") /\
  (existsb Classify.gt0 a = true -> NQ <> 0%Z -> (NQ < 2)%Z ->
   Classify.quantile_classify (Some a) NQ = Aggregator.PyRaise "IndexError").
Proof.
  split; [|split].
  - intros Hf. destruct (decide (a = [])) as [->|Hne]; [reflexivity|].
    rewrite (ClassifyOutput.quantile_classify_nonempty_eq a NQ Hne).
    rewrite decide_True; [reflexivity|]. by apply ClassifyOutput.existsb_gt0_filter.
  - intros Ht ->.
    assert (Hne : a <> []) by (intros ->; discriminate).
    rewrite (ClassifyOutput.quantile_classify_nonempty_eq a 0 Hne).
    rewrite decide_False; [reflexivity|].
    rewrite ClassifyOutput.existsb_gt0_filter, Ht. discriminate.
  - intros Ht H0 H2.
    assert (Hne : a <> []) by (intros ->; discriminate).
    rewrite (ClassifyOutput.quantile_classify_nonempty_eq a NQ Hne).
    rewrite decide_False.
    2:{ rewrite ClassifyOutput.existsb_gt0_filter, Ht. discriminate. }
    assert (Har : Classify.arange_fracs NQ = Some []).
    { unfold Classify.arange_fracs. apply Z.eqb_neq in H0. rewrite H0.
      destruct (Z.ltb_spec NQ 0); [reflexivity|].
      replace (Z.to_nat NQ - 1)%nat with 0%nat by lia. reflexivity. }
    by rewrite Har.
Qed.

